(** * The view layer of the bitmap index: slice routing and the fragment registry

    A shallow embedding of [view.go].  A [View] owns a map from slice
    numbers to fragments, finds the fragments already on disk when it is
    opened, creates missing ones on demand and routes [SetBit]/[ClearBit]
    to the fragment that owns the row.

    Go values are modelled as follows.
    - [uint64] is [N]; the only arithmetic of the view is a division, which
      cannot overflow.  [strconv.ParseUint] writes its wrap-around out.
    - A Go string is a list of bytes, [list ascii].
    - [error] is the message of the error; [nil] is [None].
    - [*Fragment] is a location in a heap of fragment records, so that two
      references to one fragment are the same location.
    - [map[uint64]*Fragment] is a [gmap N loc]; a missing key reads as the
      nil pointer.
    - The operating system, the fragments' storage and the stats client are
      an interface [Env] over an abstract world; every call that acts on
      that world is also written to a log of events.
    The mutex of the view is not modelled: the embedding is sequential. *)

From Stdlib Require Import Ascii String.
From stdpp Require Import gmap list.

Local Open Scope N_scope.

(** ** Go strings *)

Definition gostring := list ascii.

Definition str (s : string) : gostring := list_ascii_of_string s.

(** ** strconv *)

Module strconv.

Definition maxUint64 : N := 2 ^ 64 - 1.

Definition is_digit (c : ascii) : bool :=
  (48 <=? N_of_ascii c) && (N_of_ascii c <=? 57).

Definition digit_val (c : ascii) : N := N_of_ascii c - 48.

(** [cutoff] is the smallest number such that [cutoff * 10 > maxUint64]. *)
Definition cutoff : N := maxUint64 / 10 + 1.

(** The digit loop of [ParseUint] for base 10 and bit size 64.  A byte that
    is not a decimal digit is a syntax error, a value above [maxUint64] is
    a range error; the caller only looks at [err != nil], so both are
    [None].  [n * 10] cannot wrap below [cutoff]; [n + d] can, and Go
    detects it by [n1 < n]. *)
Fixpoint ParseUint_loop (s : gostring) (n : N) : option N :=
  match s with
  | [] => Some n
  | c :: s' =>
      if is_digit c then
        if cutoff <=? n then None
        else
          let n10 := n * 10 in
          let n1 := (n10 + digit_val c) mod 2 ^ 64 in
          if (n1 <? n10) || (maxUint64 <? n1) then None
          else ParseUint_loop s' n1
      else None
  end.

(** [strconv.ParseUint(s, 10, 64)]. *)
Definition ParseUint (s : gostring) : option N :=
  match s with
  | [] => None
  | _ => ParseUint_loop s 0
  end.

Definition digit_char (d : N) : ascii := ascii_of_N (48 + d).

(** The loop of [formatBits] for base 10: digits are produced from the
    least significant one and written in front of the ones already there.
    The fuel bounds the number of digits. *)
Fixpoint formatBits (fuel : nat) (u : N) (a : gostring) : gostring :=
  match fuel with
  | O => a
  | S fuel' =>
      if u <? 10 then digit_char u :: a
      else formatBits fuel' (u / 10) (digit_char (u mod 10) :: a)
  end.

(** [strconv.FormatUint(u, 10)]; a [uint64] has at most 20 digits. *)
Definition FormatUint (u : N) : gostring := formatBits 20 u [].

(** The value of a string of decimal digits, read after [acc]. *)
Definition decimal_value (s : gostring) (acc : N) : N :=
  foldl (λ n c, n * 10 + digit_val c) acc s.

End strconv.

(** ** path/filepath, with [/] as the separator *)

Module filepath.

Definition Separator : ascii := "/"%char.

Definition IsPathSeparator (c : ascii) : bool := Ascii.eqb c Separator.

(** The elements of a path between separators; never the empty list. *)
Fixpoint elements (p : gostring) : list gostring :=
  match p with
  | [] => [[]]
  | c :: p' =>
      if IsPathSeparator c then [] :: elements p'
      else match elements p' with
           | e :: es => (c :: e) :: es
           | [] => [[c]]
           end
  end.

(** [strings.Join(elems, "/")]. *)
Fixpoint join_sep (es : list gostring) : gostring :=
  match es with
  | [] => []
  | [e] => e
  | e :: es' => e ++ Separator :: join_sep es'
  end.

Definition dot : gostring := str ".".
Definition dotdot : gostring := str "..".

Definition gostring_eqb (a b : gostring) : bool := bool_decide (a = b).

(** One element of the path seen by [Clean].  [out] holds the elements
    written so far, the last one first.  An empty element and [.] are
    dropped; [..] removes the last element written unless there is none
    to remove, and then it is kept on a relative path and dropped on a
    rooted one. *)
Definition clean_elem (rooted : bool) (out : list gostring) (e : gostring)
  : list gostring :=
  if gostring_eqb e [] || gostring_eqb e dot then out
  else if gostring_eqb e dotdot then
    match out with
    | top :: out' =>
        if gostring_eqb top dotdot then e :: out else out'
    | [] => if rooted then out else [e]
    end
  else e :: out.

(** [filepath.Clean]: the shortest path equivalent to [p] by purely
    lexical processing. *)
Definition Clean (p : gostring) : gostring :=
  match p with
  | [] => dot
  | c :: _ =>
      let rooted := IsPathSeparator c in
      let out := rev (foldl (clean_elem rooted) [] (elements p)) in
      if rooted then Separator :: join_sep out
      else match out with
           | [] => dot
           | _ => join_sep out
           end
  end.

(** [filepath.Join]: the elements from the first non-empty one on are
    joined with the separator and the result is cleaned. *)
Fixpoint Join (elem : list gostring) : gostring :=
  match elem with
  | [] => []
  | e :: elem' =>
      match e with
      | [] => Join elem'
      | _ => Clean (join_sep elem)
      end
  end.

Fixpoint strip_trailing (p : gostring) : gostring :=
  match p with
  | [] => []
  | c :: p' =>
      match strip_trailing p' with
      | [] => if IsPathSeparator c then [] else [c]
      | q => c :: q
      end
  end.

(** [filepath.Base]: the last element of the path, after trailing
    separators are removed. *)
Definition Base (p : gostring) : gostring :=
  match p with
  | [] => dot
  | _ =>
      match last (elements (strip_trailing p)) with
      | Some [] | None => [Separator]
      | Some e => e
      end
  end.

(** An element that [Clean] keeps as it is. *)
Definition plain (e : gostring) : Prop :=
  e ≠ [] ∧ e ≠ dot ∧ e ≠ dotdot
  ∧ Forall (λ c, IsPathSeparator c = false) e.

(** What [Clean] writes: never an empty element, never a dot, never a
    separator inside an element. *)
Definition kept (x : gostring) : Prop :=
  x ≠ [] ∧ x ≠ dot ∧ Forall (λ c, IsPathSeparator c = false) x.

End filepath.

(** ** fmt *)

Module fmt.

(** [%d] of a [uint64]. *)
Definition verb_d (n : N) : gostring := strconv.FormatUint n.

(** [%s] of a [uint64]: the verb does not fit the type, and [fmt] prints
    [%!s(uint64=N)]. *)
Definition verb_s_uint64 (n : N) : gostring :=
  str "%!s(uint64=" ++ strconv.FormatUint n ++ str ")".

End fmt.

(** ** The collaborators of the view *)

Definition error := gostring.

(** A [*Fragment]: a location in the heap of fragments. *)
Definition loc := nat.

(** An open directory, [*os.File]. *)
Definition File := nat.

(** [io.Writer]; [ioutil.Discard] is the default of a new view. *)
Inductive Writer :=
| Discard
| WriterRef (id : nat).

(** [StatsClient]; [NopStatsClient] is the default of a new view. *)
Inductive StatsClient :=
| NopStatsClient
| StatsRef (id : nat).

(** [*AttrStore]; [None] is the nil pointer. *)
Definition AttrStoreRef := option nat.

(** [os.FileInfo], as far as the view reads it. *)
Record FileInfo := mkFileInfo {
  fi_Name : gostring;
  fi_IsDir : bool
}.

(** The fields of a [Fragment] that the view sets or reads.  The bitmap
    data of the fragment is not here: it belongs to the world of [Env]. *)
Record Fragment := mkFragment {
  f_path : gostring;
  f_db : gostring;
  f_frame : gostring;
  f_view : gostring;
  f_slice : N;
  f_LogOutput : Writer;
  f_stats : StatsClient;
  f_BitmapAttrStore : AttrStoreRef
}.

(** Modelled from the spec: [NewFragment] is not in the sources.  The
    partition unit is constructed from (path, database, frame, view,
    slice) and performs no I/O yet; the fields set after construction
    start at the defaults of a new view. *)
Definition NewFragment (path db frame view : gostring) (slice : N) : Fragment :=
  {| f_path := path; f_db := db; f_frame := frame; f_view := view;
     f_slice := slice; f_LogOutput := Discard; f_stats := NopStatsClient;
     f_BitmapAttrStore := None |}.

(** Modelled from the spec: [Fragment.Slice] is not in the sources.  The
    slice identity accessor returns the slice number the fragment was
    constructed with. *)
Definition Fragment_Slice (f : Fragment) : N := f_slice f.

Definition set_LogOutput (w : Writer) (f : Fragment) : Fragment :=
  {| f_path := f_path f; f_db := f_db f; f_frame := f_frame f;
     f_view := f_view f; f_slice := f_slice f; f_LogOutput := w;
     f_stats := f_stats f; f_BitmapAttrStore := f_BitmapAttrStore f |}.

Definition set_stats (s : StatsClient) (f : Fragment) : Fragment :=
  {| f_path := f_path f; f_db := f_db f; f_frame := f_frame f;
     f_view := f_view f; f_slice := f_slice f; f_LogOutput := f_LogOutput f;
     f_stats := s; f_BitmapAttrStore := f_BitmapAttrStore f |}.

Definition set_BitmapAttrStore (a : AttrStoreRef) (f : Fragment) : Fragment :=
  {| f_path := f_path f; f_db := f_db f; f_frame := f_frame f;
     f_view := f_view f; f_slice := f_slice f; f_LogOutput := f_LogOutput f;
     f_stats := f_stats f; f_BitmapAttrStore := a |}.

(** The calls by which the view acts on what is outside it, the file
    system, the storage of the fragments and the stats client, in the
    order they are made.  What only computes a value is not an event:
    [os.IsNotExist], the accessors of [os.FileInfo], [NewFragment],
    [Fragment.Slice], and the functions of [filepath], [strconv] and
    [fmt]. *)
Inductive event :=
| EvMkdirAll (path : gostring)
| EvOsOpen (path : gostring)
| EvReaddir (file : File)
| EvFileClose (file : File)
| EvFragmentOpen (frag : loc) (slice : N)
| EvFragmentClose (frag : loc)
| EvFragmentSetBit (frag : loc) (bitmapID profileID : N)
| EvFragmentClearBit (frag : loc) (bitmapID profileID : N)
| EvStatsCount (name : gostring) (value : Z)
| EvStatsWithTags (tags : gostring).

Global Instance event_eq_dec : EqDecision event.
Proof. solve_decision. Defined.

(** What the view assumes of the rest of the program.  [W] is the state
    of everything outside the view: the file system, the storage of the
    fragments, the counters.  Each operation may fail in any way it likes.
    [WithTags] of the stats client is two fields: [Stats_WithTags] is the
    client it returns, known by the receiver and the tags, and
    [Stats_WithTags_effect] is what the call does to the world.
    [range_order] is the order in which a [range] statement visits a map,
    which Go leaves unspecified: any enumeration of the entries. *)
Class Env (W : Type) := {
  os_MkdirAll : gostring → W → option error * W;
  os_Open : gostring → W → (File + error) * W;
  os_IsNotExist : error → bool;
  File_Readdir : File → W → (list FileInfo * option error) * W;
  File_Close : File → W → option error * W;
  Fragment_Open : loc → Fragment → W → option error * W;
  Fragment_Close : loc → Fragment → W → option error * W;
  Fragment_SetBit : loc → Fragment → N → N → W → (bool * option error) * W;
  Fragment_ClearBit : loc → Fragment → N → N → W → (bool * option error) * W;
  Stats_Count : StatsClient → gostring → Z → W → W;
  Stats_WithTags : StatsClient → gostring → StatsClient;
  Stats_WithTags_effect : StatsClient → gostring → W → W;
  range_order : W → gmap N loc → list (N * loc);
  range_order_perm : ∀ w m, range_order w m ≡ₚ map_to_list m
}.

(** ** The view *)

Record View := mkView {
  path : gostring;
  db : gostring;
  frame : gostring;
  name : gostring;
  fragments : gmap N loc;
  stats : StatsClient;
  BitmapAttrStore : AttrStoreRef;
  LogOutput : Writer
}.

(** [NewView]: an empty registry, the no-op stats client, a discarding
    log. *)
Definition NewView (path db frame name : gostring) : View :=
  {| path := path; db := db; frame := frame; name := name;
     fragments := ∅; stats := NopStatsClient; BitmapAttrStore := None;
     LogOutput := Discard |}.

Definition set_fragments (m : gmap N loc) (v : View) : View :=
  {| path := path v; db := db v; frame := frame v; name := name v;
     fragments := m; stats := stats v;
     BitmapAttrStore := BitmapAttrStore v; LogOutput := LogOutput v |}.

(** [FragmentPath] reads the view and nothing else. *)
Definition FragmentPath (v : View) (slice : N) : gostring :=
  filepath.Join [path v; str "fragments"; strconv.FormatUint slice].

(** The path of [rel] below the cleaned directory [dir]: nothing is put
    in front for the current directory, and the root is not followed by a
    second separator. *)
Definition under (dir rel : gostring) : gostring :=
  if filepath.gostring_eqb dir filepath.dot then rel
  else if filepath.gostring_eqb dir [filepath.Separator]
       then filepath.Separator :: rel
       else dir ++ filepath.Separator :: rel.

(** ** The state of a run *)

(** The world outside the view, the heap of fragments, the view itself
    and the log of the calls made so far. *)
Record State (W : Type) := mkState {
  world : W;
  heap : list Fragment;
  view : View;
  log : list event
}.

Arguments mkState {W}.
Arguments world {W}.
Arguments heap {W}.
Arguments view {W}.
Arguments log {W}.

(** The result of a call that may dereference a nil pointer. *)
Inductive outcome (A : Type) :=
| Returns (a : A)
| Panics.

Arguments Returns {A}.
Arguments Panics {A}.

Global Instance Fragment_inhabited : Inhabited Fragment :=
  populate (NewFragment [] [] [] [] 0).

(** [fmt.Errorf("open fragment: slice=%s, err=%s", slice, err)]. *)
Definition open_fragment_error (slice : N) (err : error) : error :=
  str "open fragment: slice=" ++ fmt.verb_s_uint64 slice
    ++ str ", err=" ++ err.

Section Program.

Context {W : Type} `{!Env W}.

(** The number of row identifiers of one slice, a constant of the package
    declared outside [view.go]. *)
Variable SliceWidth : N.

Definition set_heap (h : list Fragment) (st : State W) : State W :=
  mkState (world st) h (view st) (log st).

Definition set_view (v : View) (st : State W) : State W :=
  mkState (world st) (heap st) v (log st).

(** A call of an operation of [Env]: the world moves on and the call is
    logged. *)
Definition call {A : Type} (ev : event) (op : W → A * W) (st : State W)
  : A * State W :=
  let '(a, w) := op (world st) in
  (a, mkState w (heap st) (view st) (log st ++ [ev])).

(** The fragment behind a reference.  References are only made by
    [newFragment] and fragments are never freed, so the default is not
    read. *)
Definition deref (frag : loc) (st : State W) : Fragment := heap st !!! frag.

Definition frag_Open (frag : loc) (st : State W) : option error * State W :=
  call (EvFragmentOpen frag (Fragment_Slice (deref frag st)))
       (Fragment_Open frag (deref frag st)) st.

Definition frag_Close (frag : loc) (st : State W) : option error * State W :=
  call (EvFragmentClose frag) (Fragment_Close frag (deref frag st)) st.

Definition frag_SetBit (frag : loc) (bitmapID profileID : N) (st : State W)
  : (bool * option error) * State W :=
  call (EvFragmentSetBit frag bitmapID profileID)
       (Fragment_SetBit frag (deref frag st) bitmapID profileID) st.

Definition frag_ClearBit (frag : loc) (bitmapID profileID : N) (st : State W)
  : (bool * option error) * State W :=
  call (EvFragmentClearBit frag bitmapID profileID)
       (Fragment_ClearBit frag (deref frag st) bitmapID profileID) st.

Definition frag_Slice (frag : loc) (st : State W) : N :=
  Fragment_Slice (deref frag st).

(** [v.stats.Count(name, value)]. *)
Definition stats_Count (name : gostring) (value : Z) (st : State W) : State W :=
  snd (call (EvStatsCount name value)
            (λ w, (tt, Stats_Count (stats (view st)) name value w)) st).

(** [v.stats.WithTags(tags)]. *)
Definition stats_WithTags (tags : gostring) (st : State W)
  : StatsClient * State W :=
  call (EvStatsWithTags tags)
       (λ w, (Stats_WithTags (stats (view st)) tags,
              Stats_WithTags_effect (stats (view st)) tags w)) st.

(** [frag.BitmapAttrStore = a]. *)
Definition store_BitmapAttrStore (frag : loc) (a : AttrStoreRef) (st : State W)
  : State W :=
  set_heap (<[frag := set_BitmapAttrStore a (deref frag st)]> (heap st)) st.

(** [v.fragments[slice] = frag]. *)
Definition store_fragment (slice : N) (frag : loc) (st : State W) : State W :=
  set_view (set_fragments (<[slice := frag]> (fragments (view st))) (view st)) st.

(** [newFragment]: a new fragment on the heap, with the log output of the
    view and the stats client that the client of the view returns for the
    tag of the slice. *)
Definition newFragment (path : gostring) (slice : N) (st : State W)
  : loc * State W :=
  let v := view st in
  let frag := NewFragment path (db v) (frame v) (name v) slice in
  let frag := set_LogOutput (LogOutput v) frag in
  let '(tagged, st) := stats_WithTags (str "slice:" ++ fmt.verb_d slice) st in
  let frag := set_stats tagged frag in
  (length (heap st), set_heap (heap st ++ [frag]) st).

(** The body of the loop of [Close]. *)
Fixpoint Close_range (frags : list (N * loc)) (st : State W) : State W :=
  match frags with
  | [] => st
  | (_, frag) :: frags' =>
      let '(_, st) := frag_Close frag st in
      Close_range frags' st
  end.

(** [Close]: closes all fragments and starts a new map. *)
Definition Close (st : State W) : option error * State W :=
  let st := Close_range (range_order (world st) (fragments (view st))) st in
  let st := set_view (set_fragments ∅ (view st)) st in
  (None, st).

(** The loop of [openFragments] over the entries of the directory. *)
Fixpoint openFragments_range (fis : list FileInfo) (st : State W)
  : option error * State W :=
  match fis with
  | [] => (None, st)
  | fi :: fis' =>
      if fi_IsDir fi then openFragments_range fis' st
      else
        match strconv.ParseUint (filepath.Base (fi_Name fi)) with
        | None => openFragments_range fis' st
        | Some slice =>
            let '(frag, st) :=
              newFragment (FragmentPath (view st) slice) slice st in
            let '(err, st) := frag_Open frag st in
            match err with
            | Some err =>
                (Some (open_fragment_error (frag_Slice frag st) err), st)
            | None =>
                let st :=
                  store_BitmapAttrStore frag (BitmapAttrStore (view st)) st in
                let st := store_fragment (frag_Slice frag st) frag st in
                let st := stats_Count (str "maxSlice") 1 st in
                openFragments_range fis' st
            end
        end
  end.

(** [openFragments]: a missing directory is no fragments; the directory
    is closed again on every way out once it has been opened. *)
Definition openFragments (st : State W) : option error * State W :=
  let dir := filepath.Join [path (view st); str "fragments"] in
  let '(r, st) := call (EvOsOpen dir) (os_Open dir) st in
  match r with
  | inr err => if os_IsNotExist err then (None, st) else (Some err, st)
  | inl file =>
      let '(res, st) :=
        let '((fis, err), st) := call (EvReaddir file) (File_Readdir file) st in
        match err with
        | Some err => (Some err, st)
        | None => openFragments_range fis st
        end in
      let '(_, st) := call (EvFileClose file) (File_Close file) st in
      (res, st)
  end.

(** The function literal inside [Open]. *)
Definition Open_steps (st : State W) : option error * State W :=
  let p := path (view st) in
  let '(err, st) := call (EvMkdirAll p) (os_MkdirAll p) st in
  match err with
  | Some err => (Some err, st)
  | None =>
      let p := filepath.Join [path (view st); str "fragments"] in
      let '(err, st) := call (EvMkdirAll p) (os_MkdirAll p) st in
      match err with
      | Some err => (Some err, st)
      | None =>
          let '(err, st) := openFragments st in
          match err with
          | Some err => (Some err, st)
          | None => (None, st)
          end
      end
  end.

Definition Open (st : State W) : option error * State W :=
  let '(err, st) := Open_steps st in
  match err with
  | Some err =>
      let '(_, st) := Close st in
      (Some err, st)
  | None => (None, st)
  end.

(** [MaxSlice]: the keys are visited in the order of [range]. *)
Definition MaxSlice (st : State W) : N :=
  foldl (λ max slice, if max <? slice then slice else max) 0
        (range_order (world st) (fragments (view st))).*1.

Definition fragment (slice : N) (st : State W) : option loc :=
  fragments (view st) !! slice.

Definition Fragment_of (slice : N) (st : State W) : option loc :=
  fragment slice st.

(** [Fragments]: a new slice with the fragments of the map. *)
Definition Fragments (st : State W) : list loc :=
  foldl (λ other kv, other ++ [kv.2]) []
        (range_order (world st) (fragments (view st))).

Definition createFragmentIfNotExists (slice : N) (st : State W)
  : (option loc * option error) * State W :=
  match fragments (view st) !! slice with
  | Some frag => ((Some frag, None), st)
  | None =>
      let '(frag, st) := newFragment (FragmentPath (view st) slice) slice st in
      let '(err, st) := frag_Open frag st in
      match err with
      | Some err => ((None, Some err), st)
      | None =>
          let st := store_BitmapAttrStore frag (BitmapAttrStore (view st)) st in
          let st := store_fragment slice frag st in
          let st := stats_Count (str "maxSlice") 1 st in
          ((Some frag, None), st)
      end
  end.

Definition CreateFragmentIfNotExists (slice : N) (st : State W)
  : (option loc * option error) * State W :=
  createFragmentIfNotExists slice st.

(** [SetBit]; [changed] is a named result and still false when the
    fragment cannot be had. *)
Definition SetBit (bitmapID profileID : N) (st : State W)
  : outcome (bool * option error) * State W :=
  let changed := false in
  let slice := profileID / SliceWidth in
  let '((frag, err), st) := CreateFragmentIfNotExists slice st in
  match err with
  | Some err => (Returns (changed, Some err), st)
  | None =>
      match frag with
      | Some frag =>
          let '(r, st) := frag_SetBit frag bitmapID profileID st in
          (Returns r, st)
      | None => (Panics, st)
      end
  end.

Definition ClearBit (bitmapID profileID : N) (st : State W)
  : outcome (bool * option error) * State W :=
  let changed := false in
  let slice := profileID / SliceWidth in
  let '((frag, err), st) := CreateFragmentIfNotExists slice st in
  match err with
  | Some err => (Returns (changed, Some err), st)
  | None =>
      match frag with
      | Some frag =>
          let '(r, st) := frag_ClearBit frag bitmapID profileID st in
          (Returns r, st)
      | None => (Panics, st)
      end
  end.

End Program.

(** ** The rest of [view.go]: accessors, layout names, sorting *)

(** The accessors [Name], [DB], [Frame] and [Path] read the fields
    [name], [db], [frame] and [path] of the record. *)

(** [strings.HasPrefix]:
    [len(s) >= len(prefix) && s[0:len(prefix)] == prefix]. *)
Module strings.

Definition HasPrefix (s prefix : gostring) : bool :=
  (length prefix <=? length s)%nat
  && bool_decide (take (length prefix) s = prefix).

End strings.

(** The comparison [<] of two Go strings: byte by byte, a proper prefix
    before the longer string. *)
Fixpoint string_less (a b : gostring) : bool :=
  match a, b with
  | _, [] => false
  | [], _ :: _ => true
  | x :: a', y :: b' =>
      if N_of_ascii x <? N_of_ascii y then true
      else if N_of_ascii y <? N_of_ascii x then false
      else string_less a' b'
  end.

(** View layout modes. *)
Definition ViewStandard : gostring := str "standard".
Definition ViewInverse : gostring := str "inverse".

Definition IsViewInverted (name : gostring) : bool :=
  strings.HasPrefix name ViewInverse.

(** [p[i]] for an [int] index: [None] is the panic of an index out of
    range. *)
Definition index {A : Type} (p : list A) (i : Z) : option A :=
  if (0 <=? i)%Z then p !! Z.to_nat i else None.

(** [p[i], p[j] = p[j], p[i]]: both elements are read before either is
    written. *)
Definition swap {A : Type} (p : list A) (i j : Z) : outcome (list A) :=
  match index p i, index p j with
  | Some x, Some y => Returns (<[Z.to_nat j := x]> (<[Z.to_nat i := y]> p))
  | _, _ => Panics
  end.

(** [viewSlice]: a slice of pointers to views; [None] is a nil pointer. *)
Definition viewSlice := list (option View).

Definition viewSlice_Swap (p : viewSlice) (i j : Z) : outcome viewSlice :=
  swap p i j.

Definition viewSlice_Len (p : viewSlice) : Z := Z.of_nat (length p).

(** [p[i].Name() < p[j].Name()]; the name of a nil view cannot be read. *)
Definition viewSlice_Less (p : viewSlice) (i j : Z) : outcome bool :=
  match index p i, index p j with
  | Some (Some v), Some (Some v') => Returns (string_less (name v) (name v'))
  | _, _ => Panics
  end.

(** [ViewInfo]: the schema information of a view. *)
Record ViewInfo := mkViewInfo {
  Name : gostring
}.

Definition viewInfoSlice := list (option ViewInfo).

Definition viewInfoSlice_Swap (p : viewInfoSlice) (i j : Z)
  : outcome viewInfoSlice :=
  swap p i j.

Definition viewInfoSlice_Len (p : viewInfoSlice) : Z := Z.of_nat (length p).

Definition viewInfoSlice_Less (p : viewInfoSlice) (i j : Z) : outcome bool :=
  match index p i, index p j with
  | Some (Some v), Some (Some v') => Returns (string_less (Name v) (Name v'))
  | _, _ => Panics
  end.


(** A comparison of the elements at two indices by [string_less] of their
    names is a strict total order of the names and panics exactly when an
    index is out of range or the element is nil. *)
Definition orders_by_name {A : Type} (nm : A → gostring)
    (Less : list (option A) → Z → Z → outcome bool) : Prop :=
  ∀ p : list (option A),
    (∀ i j, Less p i j = Panics
            ↔ ¬ ∃ v v', index p i = Some (Some v) ∧ index p j = Some (Some v'))
    ∧ (∀ i j v v',
         index p i = Some (Some v) → index p j = Some (Some v') →
         Less p i j = Returns (string_less (nm v) (nm v')))
    ∧ (∀ i, Less p i i ≠ Returns true)
    ∧ (∀ i j, Less p i j = Returns true → Less p j i = Returns false)
    ∧ (∀ i j k, Less p i j = Returns true → Less p j k = Returns true →
                Less p i k = Returns true)
    ∧ (∀ i j v v',
         index p i = Some (Some v) → index p j = Some (Some v') →
         Less p i j = Returns false → Less p j i = Returns false →
         nm v = nm v').

(** An exchange of the elements at two indices: it panics exactly when an
    index is out of range and changes nothing then; otherwise the two
    elements change places, every other element stays, and the same
    exchange again gives the slice back. *)
Definition transposes {A : Type} (Swap : list A → Z → Z → outcome (list A))
  : Prop :=
  ∀ (p : list A) (i j : Z),
    (Swap p i j = Panics
     ↔ ¬ ((0 ≤ i < Z.of_nat (length p))%Z ∧ (0 ≤ j < Z.of_nat (length p))%Z))
    ∧ ∀ p',
        Swap p i j = Returns p' →
        length p' = length p
        ∧ p' ≡ₚ p
        ∧ index p' i = index p j
        ∧ index p' j = index p i
        ∧ (∀ k, k ≠ i → k ≠ j → index p' k = index p k)
        ∧ Swap p' i j = Returns p.

(** ** A small world to run the view in *)

(** One directory of entries, fragments that fail to open or close on
    request, bits kept per slice, and a record of the fragments that were
    asked to close.  It gives the general statements below concrete
    inputs. *)
Module Sim.

Record World := mkWorld {
  mkdir_denied : list gostring;
  dir : option (list FileInfo);
  readdir_broken : bool;
  open_failures : list N;
  close_failures : list N;
  bits : list (N * N * N);
  closes : list N
}.

Definition ENOENT : error := str "no such file or directory".
Definition EACCES : error := str "permission denied".
Definition EIO : error := str "input/output error".

Definition set_open_failures (l : list N) (w : World) : World :=
  mkWorld (mkdir_denied w) (dir w) (readdir_broken w) l (close_failures w)
          (bits w) (closes w).

Definition set_bits (b : list (N * N * N)) (w : World) : World :=
  mkWorld (mkdir_denied w) (dir w) (readdir_broken w) (open_failures w)
          (close_failures w) b (closes w).

Definition set_closes (c : list N) (w : World) : World :=
  mkWorld (mkdir_denied w) (dir w) (readdir_broken w) (open_failures w)
          (close_failures w) (bits w) c.

(** Removes the first occurrence of [x]. *)
Fixpoint remove_first (x : N) (l : list N) : list N :=
  match l with
  | [] => []
  | y :: l' => if bool_decide (x = y) then l' else y :: remove_first x l'
  end.

Definition MkdirAll (p : gostring) (w : World) : option error * World :=
  if bool_decide (p ∈ mkdir_denied w) then (Some EACCES, w) else (None, w).

Definition OsOpen (p : gostring) (w : World) : (File + error) * World :=
  match dir w with
  | Some _ => (inl 3%nat, w)
  | None => (inr ENOENT, w)
  end.

Definition Readdir (f : File) (w : World)
  : (list FileInfo * option error) * World :=
  if readdir_broken w then (([], Some EIO), w)
  else ((default [] (dir w), None), w).

(** A slice listed in [open_failures] fails to open once for each time
    it is listed. *)
Definition FragOpen (l : loc) (f : Fragment) (w : World)
  : option error * World :=
  if bool_decide (f_slice f ∈ open_failures w)
  then (Some EIO, set_open_failures (remove_first (f_slice f) (open_failures w)) w)
  else (None, w).

(** Every close is recorded, the latest last, also one that fails. *)
Definition FragClose (l : loc) (f : Fragment) (w : World)
  : option error * World :=
  let w' := set_closes (closes w ++ [f_slice f]) w in
  if bool_decide (f_slice f ∈ close_failures w) then (Some EIO, w')
  else (None, w').

Definition FragSetBit (l : loc) (f : Fragment) (bitmapID profileID : N)
  (w : World) : (bool * option error) * World :=
  let bit := (f_slice f, bitmapID, profileID) in
  if bool_decide (bit ∈ bits w) then ((false, None), w)
  else ((true, None), set_bits (bit :: bits w) w).

Definition FragClearBit (l : loc) (f : Fragment) (bitmapID profileID : N)
  (w : World) : (bool * option error) * World :=
  let bit := (f_slice f, bitmapID, profileID) in
  if bool_decide (bit ∈ bits w)
  then ((true, None), set_bits (filter (λ b, b ≠ bit) (bits w)) w)
  else ((false, None), w).

Global Instance env : Env World := {|
  os_MkdirAll := MkdirAll;
  os_Open := OsOpen;
  os_IsNotExist := λ e, bool_decide (e = ENOENT);
  File_Readdir := Readdir;
  File_Close := λ _ w, (None, w);
  Fragment_Open := FragOpen;
  Fragment_Close := FragClose;
  Fragment_SetBit := FragSetBit;
  Fragment_ClearBit := FragClearBit;
  Stats_Count := λ _ _ _ w, w;
  Stats_WithTags := λ c _, c;
  Stats_WithTags_effect := λ _ _ w, w;
  range_order := λ _ m, map_to_list m;
  range_order_perm := λ _ m, reflexivity (map_to_list m)
|}.

Definition file (name : string) : FileInfo := mkFileInfo (str name) false.

Definition directory (name : string) : FileInfo := mkFileInfo (str name) true.

(** A world in which nothing fails, with the given directory. *)
Definition quiet (d : option (list FileInfo)) : World :=
  mkWorld [] d false [] [] [] [].

(** A new view at [/data/v] before [Open]. *)
Definition start (w : World) : State World :=
  mkState w [] (NewView (str "/data/v") (str "d") (str "f") (str "standard")) [].

(** The directory of the example: two fragments and two other files. *)
Definition four_entries : list FileInfo :=
  [file "3"; file "7"; file "x"; file "12.tmp"].

(** The directory of the example, nothing failing. *)
Definition four_world : World := quiet (Some four_entries).

(** The same directory, and the fragment of slice 7 fails to open. *)
Definition broken_world : World := set_open_failures [7] four_world.

(** No directory yet, and the fragment of slice 1 fails to open once. *)
Definition flaky_world : World := set_open_failures [1] (quiet None).

Definition fresh_state : State World := start (quiet None).
Definition four_state : State World := start four_world.
Definition broken_state : State World := start broken_world.
Definition flaky_state : State World := start flaky_world.

(** The view of [four_world] after [Open]. *)
Definition opened_state : State World := (Open four_state).2.

(** The scan of [broken_world] before the entry that fails. *)
Definition scanned_state : State World :=
  (openFragments_range [file "3"] broken_state).2.

(** The state after the fragment of slice 1 failed to open. *)
Definition failed_state : State World :=
  (CreateFragmentIfNotExists (5 / 4) flaky_state).2.


(** The directory of the example; the fragment of slice 7 fails to
    close. *)
Definition stubborn_world : World :=
  mkWorld [] (Some four_entries) false [] [7] [] [].

(** The view of [stubborn_world] after [Open]. *)
Definition stubborn_state : State World := (Open (start stubborn_world)).2.

(** The state in which [Open] scans [broken_world], and the state that
    the scan leaves. *)
Definition broken_made : State World :=
  mkState broken_world [] (view broken_state)
          [EvMkdirAll (str "/data/v"); EvMkdirAll (str "/data/v/fragments")].

Definition broken_scanned : State World := (openFragments broken_made).2.

(** Views that differ in their path only. *)
Definition view_at (p : string) : View :=
  NewView (str p) (str "d") (str "f") (str "standard").

(** A directory in which two names read as slice 7. *)
Definition twice_entries : list FileInfo := [file "7"; file "007"].
Definition twice_state : State World := start (quiet (Some twice_entries)).
Definition twice_scanned : State World :=
  (openFragments_range twice_entries twice_state).2.

(** The directory of the fragments cannot be made. *)
Definition denied_state : State World :=
  start (mkWorld [str "/data/v/fragments"] None false [] [] [] []).

(** Views that differ in their name only, and a slice of them. *)
Definition named (n : string) : View :=
  NewView (str "/data/v") (str "d") (str "f") (str n).

Definition some_views : viewSlice :=
  [Some (named "standard"); Some (named "inverse"); None].

End Sim.

(** ** The vocabulary of the statements *)

Section Vocabulary.

Context {W : Type} `{!Env W}.

(** The calls logged after the first [n]. *)
Definition events_after (n : nat) (st : State W) : list event :=
  drop n (log st).

(** Every fragment in the map is on the heap and says of itself that it
    holds the slice it is stored under. *)
Definition registry_inv (st : State W) : Prop :=
  ∀ slice frag,
    fragments (view st) !! slice = Some frag →
    ∃ f, heap st !! frag = Some f ∧ Fragment_Slice f = slice.

(** The fragment that [newFragment] puts on the heap for [slice]. *)
Definition fresh_fragment (st : State W) (slice : N) : Fragment :=
  let v := view st in
  set_stats (Stats_WithTags (stats v) (str "slice:" ++ fmt.verb_d slice))
    (set_LogOutput (LogOutput v)
       (NewFragment (FragmentPath v slice) (db v) (frame v) (name v) slice)).

(** The world in which a new fragment of [slice] is opened: the stats
    client of the view has been asked for the client of the slice. *)
Definition tagged (slice : N) (st : State W) : W :=
  Stats_WithTags_effect (stats (view st)) (str "slice:" ++ fmt.verb_d slice)
                        (world st).

(** The state after a new fragment of [slice] was opened and stored:
    [w] is the world its [Open] left. *)
Definition opened (slice : N) (w : W) (st : State W) : State W :=
  mkState (Stats_Count (stats (view st)) (str "maxSlice") 1 w)
          (heap st ++ [set_BitmapAttrStore (BitmapAttrStore (view st))
                                           (fresh_fragment st slice)])
          (set_fragments (<[slice := length (heap st)]> (fragments (view st)))
                         (view st))
          (log st ++ [EvStatsWithTags (str "slice:" ++ fmt.verb_d slice);
                      EvFragmentOpen (length (heap st)) slice;
                      EvStatsCount (str "maxSlice") 1]).

(** The state after a new fragment of [slice] failed to open. *)
Definition open_failed (slice : N) (w : W) (st : State W) : State W :=
  mkState w (heap st ++ [fresh_fragment st slice]) (view st)
          (log st ++ [EvStatsWithTags (str "slice:" ++ fmt.verb_d slice);
                      EvFragmentOpen (length (heap st)) slice]).

(** The fragment as it is on the heap once it is stored in the map. *)
Definition stored_fragment (st : State W) (slice : N) : Fragment :=
  set_BitmapAttrStore (BitmapAttrStore (view st)) (fresh_fragment st slice).

(** The map after fragments for [slices] were stored one after the other,
    the first at location [base]; a slice that comes twice keeps the
    later fragment. *)
Fixpoint register_from (base : nat) (slices : list N) (m : gmap N loc)
  : gmap N loc :=
  match slices with
  | [] => m
  | slice :: slices' => register_from (S base) slices' (<[slice := base]> m)
  end.



Definition is_mutation (ev : event) : bool :=
  match ev with
  | EvFragmentSetBit _ _ _ | EvFragmentClearBit _ _ _ => true
  | _ => false
  end.

(** The slice an entry of the directory stands for, if it stands for
    one: as the loop of [openFragments] decides it. *)
Definition recognised (fi : FileInfo) : option N :=
  if fi_IsDir fi then None
  else strconv.ParseUint (filepath.Base (fi_Name fi)).





(** The world after the fragments [frags] were asked to close one after
    the other, whatever each of them answered. *)
Definition close_each (h : list Fragment) (frags : list loc) (w : W) : W :=
  foldl (λ w frag, (Fragment_Close frag (h !!! frag) w).2) w frags.

(** The state that [Close] leaves: every fragment of the map was asked
    to close, in the order of [range], and the map is a new one. *)
Definition closed (st : State W) : State W :=
  mkState (close_each (heap st)
                      (range_order (world st) (fragments (view st))).*2
                      (world st))
          (heap st)
          (set_fragments ∅ (view st))
          (log st ++ (EvFragmentClose
                        <$> (range_order (world st) (fragments (view st))).*2)).

(** The state after a fragment was made, opened, stored and counted for
    each of [slices] in turn; [None] when one of them fails to open. *)
Fixpoint scan_opens (slices : list N) (st : State W) : option (State W) :=
  match slices with
  | [] => Some st
  | slice :: slices' =>
      match Fragment_Open (length (heap st)) (fresh_fragment st slice)
                          (tagged slice st) with
      | (None, w) => scan_opens slices' (opened slice w st)
      | (Some _, _) => None
      end
  end.

(** What [SetBit] and [ClearBit] have in common: the fragment of [slice]
    is asked for; an error of that comes back with [changed = false];
    otherwise the fragment is the one stored under [slice], the operation
    [op] of that fragment is called once, and its two results and the
    world it leaves are the result. *)
Definition routes_to
    (op : loc → Fragment → N → N → W → (bool * option error) * W)
    (ev : loc → N → N → event) (slice bitmapID profileID : N)
    (st : State W) (res : outcome (bool * option error) * State W) : Prop :=
  ∃ frag err st1,
    CreateFragmentIfNotExists slice st = ((frag, err), st1) ∧
    match err with
    | Some e => res = (Returns (false, Some e), st1)
    | None =>
        ∃ l changed err' w',
          frag = Some l ∧
          fragments (view st1) !! slice = Some l ∧
          op l (deref l st1) bitmapID profileID (world st1)
            = ((changed, err'), w') ∧
          res = (Returns (changed, err'),
                 mkState w' (heap st1) (view st1)
                         (log st1 ++ [ev l bitmapID profileID]))
    end.

End Vocabulary.

(** ** How a state evolves *)

Section Evolution.

Context {W : Type} `{!Env W}.

(** The four ways in which the operations of the view change the state:
    a call that leaves the view (the world moves on, the log grows), a
    new fragment opened and stored, a new fragment that failed to open,
    and the map replaced by an empty one. *)
Inductive step : State W → State W → Prop :=
| step_call st (w : W) (evs : list event) :
    step st (mkState w (heap st) (view st) (log st ++ evs))
| step_opened st (slice : N) (w : W) :
    step st (opened slice w st)
| step_failed st (slice : N) (w : W) :
    step st (open_failed slice w st)
| step_closed st (w : W) (evs : list event) :
    step st (mkState w (heap st) (set_fragments ∅ (view st)) (log st ++ evs)).

Definition evolves : State W → State W → Prop := rtc step.

(** The fields of a view other than its map. *)
Definition same_settings (v v' : View) : Prop :=
  path v' = path v ∧ db v' = db v ∧ frame v' = frame v ∧ name v' = name v
  ∧ stats v' = stats v ∧ BitmapAttrStore v' = BitmapAttrStore v
  ∧ LogOutput v' = LogOutput v.

(** Every fragment in the map is, on the heap, the record that the view
    builds for its slice: path, names, log output, tagged stats client
    and attribute store of the view. *)
Definition wired (st : State W) : Prop :=
  ∀ slice (l : loc),
    fragments (view st) !! slice = Some l →
    heap st !! l = Some (stored_fragment st slice).

(** The calls of a scan that opens a fragment for each of [slices], the
    first at location [base]. *)
Fixpoint scan_events (base : nat) (slices : list N) : list event :=
  match slices with
  | [] => []
  | slice :: slices' =>
      EvStatsWithTags (str "slice:" ++ fmt.verb_d slice)
        :: EvFragmentOpen base slice :: EvStatsCount (str "maxSlice") 1
        :: scan_events (S base) slices'
  end.

Definition is_file_event (ev : event) : bool :=
  match ev with
  | EvOsOpen _ | EvReaddir _ | EvFileClose _ => true
  | _ => false
  end.

(** What an operation leaves alone: the fragments that were on the heap
    stay as they were and none is removed, and the settings of the view
    stay as they were. *)
Definition keeps (st st' : State W) : Prop :=
  (∀ (l : loc) f, heap st !! l = Some f → heap st' !! l = Some f)
  ∧ (length (heap st) ≤ length (heap st'))%nat
  ∧ same_settings (view st) (view st').

End Evolution.


(** ** Properties of strconv *)

Section StrconvProperties.

Import strconv.

Lemma is_digit_bounds (c : ascii) :
  is_digit c = true ↔ 48 ≤ N_of_ascii c ≤ 57.
Proof.
  unfold is_digit. rewrite andb_true_iff, !N.leb_le. done.
Qed.

Lemma digit_val_le (c : ascii) : is_digit c = true → digit_val c ≤ 9.
Proof. rewrite is_digit_bounds. unfold digit_val. lia. Qed.

Lemma digit_char_spec (d : N) :
  d < 10 →
  is_digit (digit_char d) = true ∧ digit_val (digit_char d) = d
  ∧ (digit_char d = "0"%char → d = 0).
Proof.
  intros Hd.
  assert (d = 0 ∨ d = 1 ∨ d = 2 ∨ d = 3 ∨ d = 4 ∨ d = 5 ∨ d = 6 ∨ d = 7
          ∨ d = 8 ∨ d = 9) as Hcases by lia.
  repeat (destruct Hcases as [->|Hcases]); try subst d; by vm_compute.
Qed.

Lemma decimal_value_cons (c : ascii) (s : gostring) (acc : N) :
  decimal_value (c :: s) acc = decimal_value s (acc * 10 + digit_val c).
Proof. reflexivity. Qed.

Lemma decimal_value_ge (s : gostring) (acc : N) : acc ≤ decimal_value s acc.
Proof.
  revert acc. induction s as [|c s IH]; intros acc; [done|].
  rewrite decimal_value_cons. etrans; [|apply IH]. lia.
Qed.

(** The loop of [ParseUint] against the plain reading of the digits:
    the wrap-around checks reject exactly the values above [maxUint64]. *)
Lemma ParseUint_loop_spec (s : gostring) (acc n : N) :
  acc ≤ maxUint64 →
  ParseUint_loop s acc = Some n
  ↔ Forall (λ c, is_digit c = true) s
    ∧ decimal_value s acc = n ∧ n ≤ maxUint64.
Proof.
  revert acc. induction s as [|c s IH]; intros acc Hacc; cbn [ParseUint_loop].
  { split.
    - intros [= <-]. by repeat split.
    - intros (_ & <- & _). done. }
  rewrite Forall_cons, decimal_value_cons.
  destruct (is_digit c) eqn:Hc; [|by intuition].
  pose proof (digit_val_le c Hc) as Hd.
  pose proof (decimal_value_ge s (acc * 10 + digit_val c)) as Hge.
  change cutoff with 1844674407370955162 in *.
  change maxUint64 with 18446744073709551615 in *.
  change (2 ^ 64) with 18446744073709551616 in *.
  destruct (N.leb_spec 1844674407370955162 acc) as [Hcut|Hcut].
  { split; [done|]. intros (_ & Hv & Hn). lia. }
  destruct (N.le_gt_cases (acc * 10 + digit_val c) 18446744073709551615)
    as [Hfit|Hwrap].
  - rewrite (N.mod_small (acc * 10 + digit_val c)) by lia.
    destruct (N.ltb_spec (acc * 10 + digit_val c) (acc * 10)); [lia|].
    destruct (N.ltb_spec 18446744073709551615 (acc * 10 + digit_val c)); [lia|].
    cbn [orb]. rewrite (IH _ Hfit). by intuition.
  - assert ((acc * 10 + digit_val c) mod 18446744073709551616
            = acc * 10 + digit_val c - 18446744073709551616) as ->.
    { symmetry. apply (N.mod_unique _ _ 1); lia. }
    destruct (N.ltb_spec (acc * 10 + digit_val c - 18446744073709551616)
                         (acc * 10)); [|lia].
    cbn [orb]. split; [done|]. intros (_ & Hv & Hn). lia.
Qed.

(** [ParseUint] succeeds exactly on the non-empty strings of decimal
    digits whose value fits in 64 bits, and returns that value. *)
Lemma ParseUint_spec (s : gostring) (n : N) :
  ParseUint s = Some n
  ↔ s ≠ [] ∧ Forall (λ c, is_digit c = true) s
    ∧ decimal_value s 0 = n ∧ n ≤ maxUint64.
Proof.
  destruct s as [|c s]; [by intuition|].
  unfold ParseUint. rewrite ParseUint_loop_spec by done. by intuition.
Qed.

Lemma formatBits_digits (fuel : nat) (u : N) (a : gostring) :
  Forall (λ c, is_digit c = true) a →
  Forall (λ c, is_digit c = true) (formatBits fuel u a).
Proof.
  revert u a. induction fuel as [|fuel IH]; intros u a Ha; [done|].
  cbn [formatBits]. destruct (N.ltb_spec u 10).
  - constructor; [|done]. by apply digit_char_spec.
  - apply IH. constructor; [|done].
    apply digit_char_spec. by apply N.mod_lt.
Qed.

Lemma formatBits_value (fuel : nat) (u : N) (a : gostring) :
  u < 10 ^ N.of_nat fuel →
  decimal_value (formatBits fuel u a) 0 = decimal_value a u.
Proof.
  revert u a. induction fuel as [|fuel IH]; intros u a Hu.
  { cbn in *. by replace u with 0 by lia. }
  rewrite Nat2N.inj_succ, N.pow_succ_r' in Hu.
  cbn [formatBits]. destruct (N.ltb_spec u 10) as [Hsmall|Hbig].
  - rewrite decimal_value_cons.
    by destruct (digit_char_spec u Hsmall) as (_ & -> & _).
  - rewrite IH by (apply N.Div0.div_lt_upper_bound; lia).
    rewrite decimal_value_cons.
    destruct (digit_char_spec (u mod 10)) as (_ & -> & _);
      [by apply N.mod_lt|].
    f_equal. rewrite (N.div_mod u 10) at 3 by done. lia.
Qed.

Lemma formatBits_head (fuel : nat) (u : N) (a : gostring) :
  0 < u → u < 10 ^ N.of_nat fuel →
  ∃ d rest, formatBits fuel u a = digit_char d :: rest ∧ 1 ≤ d ≤ 9.
Proof.
  revert u a. induction fuel as [|fuel IH]; intros u a Hpos Hu.
  { cbn in Hu. lia. }
  rewrite Nat2N.inj_succ, N.pow_succ_r' in Hu.
  cbn [formatBits]. destruct (N.ltb_spec u 10) as [Hsmall|Hbig].
  - exists u, a. split; [done|lia].
  - apply IH.
    + apply N.div_str_pos. lia.
    + apply N.Div0.div_lt_upper_bound; lia.
Qed.

Lemma formatBits_nonempty (fuel : nat) (u : N) (a : gostring) :
  a ≠ [] → formatBits fuel u a ≠ [].
Proof.
  revert u a. induction fuel as [|fuel IH]; intros u a Ha; [done|].
  cbn [formatBits]. destruct (u <? 10); [done|]. by apply IH.
Qed.

Lemma FormatUint_nonempty (n : N) : FormatUint n ≠ [].
Proof.
  unfold FormatUint.
  change (formatBits 20 n [])
    with (if n <? 10 then [digit_char n]
          else formatBits 19 (n / 10) [digit_char (n mod 10)]).
  destruct (n <? 10); [done|]. by apply formatBits_nonempty.
Qed.

(** [FormatUint] writes a [uint64] as a non-empty string of decimal
    digits that reads back as the number and that starts with a zero only
    when it is the string "0". *)
Lemma FormatUint_spec (n : N) :
  n ≤ maxUint64 →
  Forall (λ c, is_digit c = true) (FormatUint n)
  ∧ decimal_value (FormatUint n) 0 = n
  ∧ ParseUint (FormatUint n) = Some n
  ∧ (∀ rest, FormatUint n = "0"%char :: rest → n = 0 ∧ rest = []).
Proof.
  intros Hn. unfold FormatUint.
  assert (n < 10 ^ N.of_nat 20) as Hfuel.
  { change maxUint64 with 18446744073709551615 in Hn.
    change (10 ^ N.of_nat 20) with 100000000000000000000. lia. }
  assert (Forall (λ c, is_digit c = true) (formatBits 20 n [])) as Hdig
    by (by apply formatBits_digits).
  assert (decimal_value (formatBits 20 n []) 0 = n) as Hval
    by (by rewrite formatBits_value).
  split; [done|]. split; [done|]. split.
  - apply ParseUint_spec. repeat split; try done.
    destruct (N.eq_dec n 0) as [->|Hpos]; [done|].
    destruct (formatBits_head 20 n []) as (d & rest & -> & _); [lia|done|done].
  - intros rest Heq. destruct (N.eq_dec n 0) as [->|Hpos].
    + by injection Heq as <-.
    + destruct (formatBits_head 20 n []) as (d & rest' & Hd & Hrange);
        [lia|done|].
      rewrite Hd in Heq. injection Heq as Hzero _.
      destruct (digit_char_spec d) as (_ & _ & Hz); [lia|].
      specialize (Hz Hzero). lia.
Qed.

End StrconvProperties.


(** ** Properties of filepath *)

Section FilepathProperties.

Import filepath.

Lemma elements_nonempty (p : gostring) : elements p ≠ [].
Proof.
  destruct p as [|c p]; cbn; [done|].
  destruct (IsPathSeparator c); [done|]. by destruct (elements p).
Qed.

Lemma elements_app_sep (a b : gostring) :
  elements (a ++ Separator :: b) = elements a ++ elements b.
Proof.
  induction a as [|c a IH]; [done|].
  cbn. rewrite IH. destruct (IsPathSeparator c); [done|].
  pose proof (elements_nonempty a). by destruct (elements a).
Qed.

Lemma elements_plain (e : gostring) :
  Forall (λ c, IsPathSeparator c = false) e → elements e = [e].
Proof.
  induction 1 as [|c e Hc _ IH]; [done|]. cbn. by rewrite Hc, IH.
Qed.

Lemma clean_elem_plain (rooted : bool) (out : list gostring) (e : gostring) :
  plain e → clean_elem rooted out e = e :: out.
Proof.
  intros (H1 & H2 & H3 & _). unfold clean_elem, gostring_eqb.
  by rewrite !bool_decide_eq_false_2.
Qed.

Lemma elements_no_separator (p : gostring) :
  Forall (Forall (λ c, IsPathSeparator c = false)) (elements p).
Proof.
  induction p as [|c p IH]; cbn; [by repeat constructor|].
  destruct (IsPathSeparator c) eqn:Hc; [by constructor|].
  destruct (elements p) as [|e es]; [by repeat constructor|].
  apply Forall_cons in IH as [He Hes]. constructor; [|done]. by constructor.
Qed.

Lemma clean_elem_kept (rooted : bool) (out : list gostring) (e : gostring) :
  Forall (λ c, IsPathSeparator c = false) e →
  Forall kept out → Forall kept (clean_elem rooted out e).
Proof.
  intros He Hout. unfold clean_elem, gostring_eqb.
  case_bool_decide as H1; cbn [orb]; [done|].
  case_bool_decide as H2; [done|].
  case_bool_decide as H3; [|by constructor].
  destruct out as [|top out].
  - destruct rooted; [done|]. by repeat constructor.
  - case_bool_decide.
    + by constructor.
    + by apply Forall_cons in Hout as [_ ?].
Qed.

Lemma clean_fold_kept (rooted : bool) (es : list gostring) (out : list gostring) :
  Forall (Forall (λ c, IsPathSeparator c = false)) es →
  Forall kept out → Forall kept (foldl (clean_elem rooted) out es).
Proof.
  revert out. induction es as [|e es IH]; intros out Hes Hout; [done|].
  apply Forall_cons in Hes as [He Hes].
  cbn. by apply IH, clean_elem_kept.
Qed.

Lemma join_sep_cons (e : gostring) (es : list gostring) :
  es ≠ [] → join_sep (e :: es) = e ++ Separator :: join_sep es.
Proof. by destruct es. Qed.

Lemma join_sep_app (r s : list gostring) :
  r ≠ [] → s ≠ [] → join_sep (r ++ s) = join_sep r ++ Separator :: join_sep s.
Proof.
  intros Hr Hs. induction r as [|e r IH]; [done|].
  destruct r as [|e' r].
  - cbn [app]. by rewrite join_sep_cons.
  - rewrite <- app_comm_cons, join_sep_cons by done.
    rewrite IH by done. rewrite (join_sep_cons e) by done.
    by rewrite <- app_assoc.
Qed.

Lemma join_sep_kept (r : list gostring) :
  r ≠ [] → Forall kept r →
  join_sep r ≠ [] ∧ join_sep r ≠ dot ∧ join_sep r ≠ [Separator].
Proof.
  intros Hr Hall. destruct r as [|e r]; [done|].
  apply Forall_cons in Hall as [(He & Hd & Hsep) _].
  destruct e as [|c e]; [done|].
  apply Forall_cons in Hsep as [Hc _].
  assert (c :: e ≠ [Separator]) as Hs by (by intros [= -> _]).
  destruct r as [|e' r]; [done|].
  rewrite join_sep_cons by done.
  split; [done|]. split.
  - unfold dot. cbn. intros [= _ Habs]. by destruct e.
  - cbn. intros [= -> _]. done.
Qed.

(** [Clean] of two plain elements below [root]. *)
Lemma Clean_below (root a b : gostring) :
  root ≠ [] → plain a → plain b →
  Clean (root ++ Separator :: a ++ Separator :: b)
  = under (Clean root) (a ++ Separator :: b).
Proof.
  intros Hroot Ha Hb. destruct root as [|c root]; [done|].
  unfold Clean. rewrite <- app_comm_cons.
  rewrite app_comm_cons, !elements_app_sep.
  rewrite (elements_plain a), (elements_plain b) by apply Ha || apply Hb.
  rewrite !foldl_app. cbn [foldl].
  rewrite (clean_elem_plain _ _ a), (clean_elem_plain _ _ b) by done.
  pose proof (clean_fold_kept (IsPathSeparator c) (elements (c :: root)) []
                (elements_no_separator _) (Forall_nil_2 _)) as Hkept.
  set (out := foldl _ [] (elements (c :: root))) in *.
  apply Forall_rev in Hkept.
  cbn [rev]. rewrite <- !app_assoc. cbn [app].
  change (a ++ Separator :: b) with (join_sep [a; b]).
  destruct (rev out) as [|e r] eqn:Hrev.
  - cbn [app]. unfold under, gostring_eqb.
    destruct (IsPathSeparator c).
    + rewrite bool_decide_eq_false_2 by done.
      by rewrite bool_decide_eq_true_2.
    + by rewrite bool_decide_eq_true_2.
  - destruct (join_sep_kept (e :: r)) as (Hne & Hnd & Hns);
      [done|exact Hkept|].
    rewrite (join_sep_app (e :: r) [a; b]) by done.
    unfold under, gostring_eqb.
    destruct (IsPathSeparator c).
    + rewrite bool_decide_eq_false_2 by done.
      rewrite bool_decide_eq_false_2; [done|].
      intros [= Habs]. done.
    + rewrite <- app_comm_cons.
      by rewrite bool_decide_eq_false_2, bool_decide_eq_false_2.
Qed.

(** [Clean] leaves two plain elements alone. *)
Lemma Clean_two_plain (a b : gostring) :
  plain a → plain b → Clean (a ++ Separator :: b) = a ++ Separator :: b.
Proof.
  intros Ha Hb.
  assert (∃ c a', a = c :: a' ∧ IsPathSeparator c = false)
    as (c & a' & Heq & Hc).
  { destruct Ha as (Hne & _ & _ & Hall). destruct a as [|c a']; [done|].
    apply Forall_cons in Hall as [? _]. eauto. }
  unfold Clean. rewrite elements_app_sep.
  rewrite (elements_plain a), (elements_plain b) by apply Ha || apply Hb.
  cbn [app foldl].
  assert (a ++ Separator :: b = c :: (a' ++ Separator :: b)) as Happ
    by (by rewrite Heq).
  rewrite Happ at 1. rewrite Hc.
  by rewrite (clean_elem_plain _ _ a), (clean_elem_plain _ _ b).
Qed.

Lemma digits_plain (s : gostring) :
  s ≠ [] → Forall (λ c, strconv.is_digit c = true) s → plain s.
Proof.
  intros Hne Hdig. split; [done|].
  assert (∀ c, strconv.is_digit c = true → c ≠ "."%char ∧ IsPathSeparator c = false)
    as Hchar.
  { intros c Hc. apply is_digit_bounds in Hc. split.
    - intros ->. change (N_of_ascii "."%char) with 46 in Hc. lia.
    - unfold IsPathSeparator. apply Ascii.eqb_neq. intros ->.
      change (N_of_ascii Separator) with 47 in Hc. lia. }
  repeat split.
  - intros ->. apply Forall_cons in Hdig as [Hc _].
    by destruct (Hchar _ Hc).
  - intros ->. apply Forall_cons in Hdig as [Hc _].
    by destruct (Hchar _ Hc).
  - eapply Forall_impl; [done|]. intros c Hc. by apply Hchar.
Qed.

Lemma FormatUint_plain (n : N) : plain (strconv.FormatUint n).
Proof.
  apply digits_plain; [apply FormatUint_nonempty|].
  by apply formatBits_digits.
Qed.

Lemma fragments_plain : plain (str "fragments").
Proof.
  split; [done|]. split; [done|]. split; [done|].
  by repeat constructor.
Qed.

Lemma FragmentPath_under (v : View) (slice : N) :
  FragmentPath v slice
  = under (Clean (path v)) (str "fragments/" ++ strconv.FormatUint slice).
Proof.
  unfold FragmentPath.
  pose proof fragments_plain as Hf.
  pose proof (FormatUint_plain slice) as Hd.
  change (str "fragments/" ++ strconv.FormatUint slice)
    with (str "fragments" ++ Separator :: strconv.FormatUint slice).
  destruct (path v) as [|c root] eqn:Hroot.
  - change (Join [[]; str "fragments"; strconv.FormatUint slice])
      with (Clean (str "fragments" ++ Separator :: strconv.FormatUint slice)).
    by rewrite Clean_two_plain.
  - change (Join [c :: root; str "fragments"; strconv.FormatUint slice])
      with (Clean ((c :: root) ++ Separator :: str "fragments"
                     ++ Separator :: strconv.FormatUint slice)).
    by rewrite Clean_below.
Qed.

(** C8, as the code has it.  [FragmentPath] depends on the path of the
    view and on the slice only.  It is [filepath.Join] of the path,
    [fragments] and the slice in decimal: the cleaned path of the view
    with [fragments/<slice>] below it.  When the path of the view is
    already clean and is neither the root directory nor the current
    directory, that is the path followed by [/fragments/<slice>] as it
    is, and by [/fragments/5] for slice 5.  An empty path and the current
    directory give the relative [fragments/<slice>], the root directory
    gives [/fragments/<slice>].  The name of a slice is its
    decimal form: digits only, no zero in front, and [ParseUint] reads
    the slice back from it. *)
Theorem FragmentPath_is_cleaned_join (v : View) (slice : N) :
  FragmentPath v slice
  = under (Clean (path v)) (str "fragments/" ++ strconv.FormatUint slice)
  ∧ (∀ v', path v' = path v → FragmentPath v' slice = FragmentPath v slice)
  ∧ (Clean (path v) = path v → path v ≠ str "/" → path v ≠ str "." →
     FragmentPath v slice
     = path v ++ str "/fragments/" ++ strconv.FormatUint slice
     ∧ FragmentPath v 5 = path v ++ str "/fragments/5")
  ∧ (path v = str "" ∨ path v = str "." →
     FragmentPath v slice = str "fragments/" ++ strconv.FormatUint slice)
  ∧ (path v = str "/" →
     FragmentPath v slice = str "/fragments/" ++ strconv.FormatUint slice)
  ∧ (slice ≤ strconv.maxUint64 →
     Forall (λ c, strconv.is_digit c = true) (strconv.FormatUint slice)
     ∧ strconv.ParseUint (strconv.FormatUint slice) = Some slice
     ∧ ∀ rest, strconv.FormatUint slice = "0"%char :: rest
               → slice = 0 ∧ rest = []).
Proof.
  split; [apply FragmentPath_under|]. split.
  { intros v' Hv'. unfold FragmentPath. by rewrite Hv'. }
  split.
  - intros Hclean Hroot Hdot.
    assert (∀ s, FragmentPath v s
                 = path v ++ str "/fragments/" ++ strconv.FormatUint s) as Hall.
    { intros s. rewrite FragmentPath_under, Hclean. unfold under, gostring_eqb.
      by rewrite bool_decide_eq_false_2, bool_decide_eq_false_2. }
    split; [apply Hall|]. by rewrite Hall.
  - split; [|split].
    + rewrite FragmentPath_under. by intros [->| ->].
    + rewrite FragmentPath_under. by intros ->.
    + intros Hn.
      destruct (FormatUint_spec slice Hn) as (Hdig & _ & Hparse & Hzero).
      done.
Qed.

End FilepathProperties.


(** ** Properties of the view *)

Section Properties.

Context {W : Type} `{!Env W}.

Implicit Types (st : State W) (slice : N).

(** *** Calls and allocation *)

Lemma call_spec {A : Type} (ev : event) (op : W → A * W) st :
  call ev op st
  = ((op (world st)).1,
     mkState (op (world st)).2 (heap st) (view st) (log st ++ [ev])).
Proof. unfold call. by destruct (op (world st)). Qed.

Lemma frag_Open_spec (frag : loc) st :
  frag_Open frag st
  = ((Fragment_Open frag (deref frag st) (world st)).1,
     mkState (Fragment_Open frag (deref frag st) (world st)).2
             (heap st) (view st)
             (log st ++ [EvFragmentOpen frag (Fragment_Slice (deref frag st))])).
Proof. apply call_spec. Qed.

Lemma newFragment_spec slice st :
  newFragment (FragmentPath (view st) slice) slice st
  = (length (heap st),
     mkState (tagged slice st) (heap st ++ [fresh_fragment st slice]) (view st)
             (log st ++ [EvStatsWithTags (str "slice:" ++ fmt.verb_d slice)])).
Proof. reflexivity. Qed.

Lemma deref_new (f : Fragment) st (w : W) (v : View) (l : list event) :
  deref (length (heap st)) (mkState w (heap st ++ [f]) v l) = f.
Proof.
  unfold deref. simpl. apply list_lookup_total_correct.
  by rewrite lookup_app_r, Nat.sub_diag.
Qed.

Lemma insert_new (h : list Fragment) (f g : Fragment) :
  <[length h := g]> (h ++ [f]) = h ++ [g].
Proof.
  rewrite <- (Nat.add_0_r (length h)). by rewrite insert_app_r.
Qed.

(** Making a fragment for [slice], opening it and, if that works, storing
    it under the slice it reports: the steps that [openFragments] and
    [createFragmentIfNotExists] share. *)
Lemma open_new_fragment slice st :
  let '(frag, st1) := newFragment (FragmentPath (view st) slice) slice st in
  let '(err, st2) := frag_Open frag st1 in
  frag = length (heap st)
  ∧ err = (Fragment_Open frag (fresh_fragment st slice) (tagged slice st)).1
  ∧ st2 = open_failed slice
            (Fragment_Open frag (fresh_fragment st slice) (tagged slice st)).2 st
  ∧ frag_Slice frag st2 = slice
  ∧ frag_Slice frag
      (store_BitmapAttrStore frag (BitmapAttrStore (view st2)) st2) = slice
  ∧ stats_Count (str "maxSlice") 1
      (store_fragment slice frag
         (store_BitmapAttrStore frag (BitmapAttrStore (view st2)) st2))
    = opened slice
        (Fragment_Open frag (fresh_fragment st slice) (tagged slice st)).2 st.
Proof.
  rewrite newFragment_spec, frag_Open_spec. cbn [fst snd world heap view log].
  rewrite deref_new, <- app_assoc. cbn [app].
  set (r := Fragment_Open _ _ _).
  repeat split.
  - unfold frag_Slice. by rewrite deref_new.
  - unfold frag_Slice, store_BitmapAttrStore, set_heap.
    cbn [world heap view log]. by rewrite deref_new, insert_new, deref_new.
  - unfold stats_Count, store_fragment, store_BitmapAttrStore, set_view, set_heap.
    rewrite call_spec. cbn [fst snd world heap view log fragments stats].
    rewrite deref_new, insert_new. unfold opened.
    by rewrite <- app_assoc.
Qed.

(** The two ways out of [createFragmentIfNotExists] for a slice that is
    not in the map. *)
Lemma create_fresh slice st :
  fragments (view st) !! slice = None →
  createFragmentIfNotExists slice st =
    match Fragment_Open (length (heap st)) (fresh_fragment st slice) (tagged slice st) with
    | (Some err, w) => ((None, Some err), open_failed slice w st)
    | (None, w) => ((Some (length (heap st)), None), opened slice w st)
    end.
Proof.
  intros Hnone. unfold createFragmentIfNotExists. rewrite Hnone.
  pose proof (open_new_fragment slice st) as Hstep.
  destruct (newFragment _ slice st) as [frag st1].
  destruct (frag_Open frag st1) as [err st2].
  destruct Hstep as (-> & -> & -> & _ & _ & Hopened).
  destruct (Fragment_Open _ _ _) as [[err|] w]; [done|].
  cbn [fst snd] in *. by rewrite Hopened.
Qed.

Lemma create_registered slice (frag : loc) st :
  fragments (view st) !! slice = Some frag →
  createFragmentIfNotExists slice st = ((Some frag, None), st).
Proof. intros Hsome. unfold createFragmentIfNotExists. by rewrite Hsome. Qed.

(** *** The result of [CreateFragmentIfNotExists] *)

Lemma create_result_shape slice st :
  ∀ frag err st',
    CreateFragmentIfNotExists slice st = ((frag, err), st') →
    (∃ l, frag = Some l ∧ err = None ∧ fragments (view st') !! slice = Some l)
    ∨ (∃ e, frag = None ∧ err = Some e ∧ fragments (view st') !! slice = None).
Proof.
  intros frag err st'. unfold CreateFragmentIfNotExists.
  destruct (fragments (view st) !! slice) as [l|] eqn:Hreg.
  - rewrite (create_registered _ _ _ Hreg). intros [= <- <- <-]. left. eauto.
  - rewrite (create_fresh _ _ Hreg).
    destruct (Fragment_Open _ _ _) as [[e|] w]; intros [= <- <- <-]; [right|left].
    + eauto.
    + eexists. cbn. by rewrite lookup_insert_eq.
Qed.

(** *** [SetBit] and [ClearBit] *)

Lemma SetBit_routes (SliceWidth bitmapID profileID : N) st :
  routes_to Fragment_SetBit EvFragmentSetBit (profileID / SliceWidth)
            bitmapID profileID st (SetBit SliceWidth bitmapID profileID st).
Proof.
  unfold routes_to, SetBit.
  destruct (CreateFragmentIfNotExists (profileID / SliceWidth) st)
    as [[frag err] st1] eqn:Hc.
  exists frag, err, st1. split; [done|].
  destruct (create_result_shape _ _ _ _ _ Hc)
    as [(l & -> & -> & Hl)|(e & -> & -> & _)]; [|done].
  unfold frag_SetBit. rewrite call_spec.
  destruct (Fragment_SetBit l (deref l st1) bitmapID profileID (world st1))
    as [[changed err'] w'] eqn:Hop.
  exists l, changed, err', w'. by rewrite Hop.
Qed.

Lemma ClearBit_routes (SliceWidth bitmapID profileID : N) st :
  routes_to Fragment_ClearBit EvFragmentClearBit (profileID / SliceWidth)
            bitmapID profileID st (ClearBit SliceWidth bitmapID profileID st).
Proof.
  unfold routes_to, ClearBit.
  destruct (CreateFragmentIfNotExists (profileID / SliceWidth) st)
    as [[frag err] st1] eqn:Hc.
  exists frag, err, st1. split; [done|].
  destruct (create_result_shape _ _ _ _ _ Hc)
    as [(l & -> & -> & Hl)|(e & -> & -> & _)]; [|done].
  unfold frag_ClearBit. rewrite call_spec.
  destruct (Fragment_ClearBit l (deref l st1) bitmapID profileID (world st1))
    as [[changed err'] w'] eqn:Hop.
  exists l, changed, err', w'. by rewrite Hop.
Qed.

(** C1.  [SetBit] and [ClearBit] take the slice of a row to be
    [profileID / SliceWidth], ask [CreateFragmentIfNotExists] for the
    fragment of that slice, call the fragment's own operation on it and
    return its changed flag and its error as they are.  With a slice
    width of 4 the rows 0 to 3 go to slice 0 and the rows 4 to 7 to
    slice 1. *)
Theorem SetBit_ClearBit_route_by_slice :
  (∀ (SliceWidth bitmapID profileID : N) st,
     routes_to Fragment_SetBit EvFragmentSetBit (profileID / SliceWidth)
               bitmapID profileID st (SetBit SliceWidth bitmapID profileID st)
     ∧ routes_to Fragment_ClearBit EvFragmentClearBit (profileID / SliceWidth)
                 bitmapID profileID st (ClearBit SliceWidth bitmapID profileID st))
  ∧ (∀ (bitmapID profileID : N) st,
       profileID ≤ 3 →
       routes_to Fragment_SetBit EvFragmentSetBit 0 bitmapID profileID st
                 (SetBit 4 bitmapID profileID st)
       ∧ routes_to Fragment_ClearBit EvFragmentClearBit 0 bitmapID profileID st
                   (ClearBit 4 bitmapID profileID st))
  ∧ (∀ (bitmapID profileID : N) st,
       4 ≤ profileID ≤ 7 →
       routes_to Fragment_SetBit EvFragmentSetBit 1 bitmapID profileID st
                 (SetBit 4 bitmapID profileID st)
       ∧ routes_to Fragment_ClearBit EvFragmentClearBit 1 bitmapID profileID st
                   (ClearBit 4 bitmapID profileID st)).
Proof.
  split; [|split].
  - intros. split; [apply SetBit_routes | apply ClearBit_routes].
  - intros b p st Hp.
    assert (p / 4 = 0) as Hs by (apply N.div_small; lia).
    rewrite <- Hs. split; [apply SetBit_routes | apply ClearBit_routes].
  - intros b p st Hp.
    assert (p / 4 = 1) as Hs.
    { symmetry. apply (N.div_unique p 4 1 (p - 4)); lia. }
    rewrite <- Hs. split; [apply SetBit_routes | apply ClearBit_routes].
Qed.

(** C9.  When [CreateFragmentIfNotExists] fails inside [SetBit] or
    [ClearBit], the operation returns [changed = false] and that error,
    and leaves the state as the failed creation left it: the only calls
    made are those for the new fragment, the one for its stats client and
    the one that opened it, and no fragment is asked to set or clear a
    bit. *)
Theorem SetBit_ClearBit_creation_failure
    (SliceWidth bitmapID profileID : N) st frag e st' :
  CreateFragmentIfNotExists (profileID / SliceWidth) st = ((frag, Some e), st') →
  SetBit SliceWidth bitmapID profileID st = (Returns (false, Some e), st')
  ∧ ClearBit SliceWidth bitmapID profileID st = (Returns (false, Some e), st')
  ∧ events_after (length (log st)) st'
    = [EvStatsWithTags (str "slice:" ++ fmt.verb_d (profileID / SliceWidth));
       EvFragmentOpen (length (heap st)) (profileID / SliceWidth)]
  ∧ Forall (λ ev, is_mutation ev = false) (events_after (length (log st)) st').
Proof.
  intros Hc. unfold SetBit, ClearBit. rewrite Hc.
  split; [done|]. split; [done|].
  assert (events_after (length (log st)) st'
          = [EvStatsWithTags (str "slice:" ++ fmt.verb_d (profileID / SliceWidth));
             EvFragmentOpen (length (heap st)) (profileID / SliceWidth)]) as Hev.
  { unfold CreateFragmentIfNotExists in Hc.
    destruct (fragments (view st) !! (profileID / SliceWidth)) as [l|] eqn:Hreg.
    - by rewrite (create_registered _ _ _ Hreg) in Hc.
    - rewrite (create_fresh _ _ Hreg) in Hc.
      destruct (Fragment_Open _ _ _) as [[e'|] w]; [|done].
      injection Hc as _ _ <-. unfold events_after. cbn.
      by rewrite drop_app_length. }
  rewrite Hev. split; [done|]. by repeat constructor.
Qed.

(** C10.  [CreateFragmentIfNotExists] returns a fragment exactly when it
    returns no error: never neither and never both.  A caller that sees
    no error holds a fragment, so [SetBit] and [ClearBit] never
    dereference a nil pointer. *)
Theorem CreateFragmentIfNotExists_fragment_iff_no_error :
  (∀ slice st,
     let '((frag, err), _) := CreateFragmentIfNotExists slice st in
     (frag ≠ None ↔ err = None)
     ∧ ¬ (frag = None ∧ err = None)
     ∧ ¬ (frag ≠ None ∧ err ≠ None))
  ∧ (∀ (SliceWidth bitmapID profileID : N) st,
       (SetBit SliceWidth bitmapID profileID st).1 ≠ Panics
       ∧ (ClearBit SliceWidth bitmapID profileID st).1 ≠ Panics).
Proof.
  split.
  - intros slice st.
    destruct (CreateFragmentIfNotExists slice st) as [[frag err] st'] eqn:Hc.
    destruct (create_result_shape _ _ _ _ _ Hc)
      as [(l & -> & -> & _)|(e & -> & -> & _)]; intuition congruence.
  - intros SW b p st. split.
    + destruct (SetBit_routes SW b p st) as (frag & err & st1 & _ & Hres).
      destruct err; [by rewrite Hres|].
      destruct Hres as (? & ? & ? & ? & _ & _ & _ & ->). done.
    + destruct (ClearBit_routes SW b p st) as (frag & err & st1 & _ & Hres).
      destruct err; [by rewrite Hres|].
      destruct Hres as (? & ? & ? & ? & _ & _ & _ & ->). done.
Qed.

(** *** [Close] *)

Lemma close_each_app (h : list Fragment) (pre post : list loc) (w : W) :
  close_each h (pre ++ post) w = close_each h post (close_each h pre w).
Proof. unfold close_each. by rewrite foldl_app. Qed.

Lemma Close_range_spec (frags : list (N * loc)) st :
  Close_range frags st
  = mkState (close_each (heap st) frags.*2 (world st)) (heap st) (view st)
            (log st ++ (EvFragmentClose <$> frags.*2)).
Proof.
  revert st. induction frags as [|[k l] frags IH]; intros st; cbn.
  - rewrite app_nil_r. by destruct st.
  - unfold frag_Close. rewrite call_spec, IH. cbn [world heap view log].
    by rewrite <- app_assoc.
Qed.

(** [Close] step by step. *)
Lemma Close_closed st : Close st = (None, closed st).
Proof. unfold Close. by rewrite Close_range_spec. Qed.

Lemma Close_spec st :
  ∃ w, Close st
       = (None,
          mkState w (heap st) (set_fragments ∅ (view st))
                  (log st ++ (EvFragmentClose <$>
                                (range_order (world st) (fragments (view st))).*2))).
Proof. rewrite Close_closed. by eexists. Qed.

Lemma range_order_empty (w : W) : range_order w ∅ = [].
Proof.
  apply Permutation_nil_r. rewrite range_order_perm.
  by rewrite map_to_list_empty.
Qed.

Lemma elem_of_range_order (w : W) (m : gmap N loc) (k : N) (l : loc) :
  (k, l) ∈ range_order w m ↔ m !! k = Some l.
Proof. rewrite range_order_perm. apply elem_of_map_to_list. Qed.

(** C5.  [Close] asks every fragment of the map to close, once each, in
    the order of [range]: each is asked in the world that the earlier
    ones left, whatever they answered, and the world after [Close] is
    the world after the last of them.  [Close] returns no error whatever
    they answered, keeps the heap and leaves an empty map.  After it
    [Fragments] is empty, and a second [Close] returns no error, makes no
    call and changes nothing. *)
Theorem Close_closes_all_and_empties st :
  (Close st).1 = None
  ∧ fragments (view (Close st).2) = ∅
  ∧ Fragments (Close st).2 = []
  ∧ events_after (length (log st)) (Close st).2
    ≡ₚ EvFragmentClose <$> (map_to_list (fragments (view st))).*2
  ∧ (∀ slice (frag : loc),
       fragments (view st) !! slice = Some frag →
       EvFragmentClose frag ∈ events_after (length (log st)) (Close st).2)
  ∧ Close (Close st).2 = (None, (Close st).2)
  ∧ Close st = (None, closed st)
  ∧ world (Close st).2
    = close_each (heap st) (range_order (world st) (fragments (view st))).*2
                 (world st)
  ∧ heap (Close st).2 = heap st
  ∧ events_after (length (log st)) (Close st).2
    = EvFragmentClose <$> (range_order (world st) (fragments (view st))).*2
  ∧ (∀ (pre post : list loc) (frag : loc),
       (range_order (world st) (fragments (view st))).*2 = pre ++ frag :: post →
       world (Close st).2
       = close_each (heap st) post
           (Fragment_Close frag (deref frag st)
                           (close_each (heap st) pre (world st))).2).
Proof.
  rewrite Close_closed. cbn [fst snd].
  unfold events_after, closed. cbn [log view heap world fragments set_fragments].
  rewrite drop_app_length.
  repeat split.
  - unfold Fragments. cbn. by rewrite range_order_empty.
  - by rewrite range_order_perm.
  - intros slice frag Hreg.
    apply list_elem_of_fmap. exists frag. split; [done|].
    apply list_elem_of_fmap. exists (slice, frag). split; [done|].
    by apply elem_of_range_order.
  - unfold Close. cbn. rewrite range_order_empty. cbn.
    reflexivity.
  - intros pre post frag ->. by rewrite close_each_app.
Qed.

(** *** The loop of [openFragments] *)

Lemma openFragments_range_cons (fi : FileInfo) (fis : list FileInfo) st :
  openFragments_range (fi :: fis) st =
    match recognised fi with
    | None => openFragments_range fis st
    | Some slice =>
        match Fragment_Open (length (heap st)) (fresh_fragment st slice) (tagged slice st) with
        | (Some err, w) =>
            (Some (open_fragment_error slice err), open_failed slice w st)
        | (None, w) => openFragments_range fis (opened slice w st)
        end
    end.
Proof.
  unfold recognised. cbn [openFragments_range].
  destruct (fi_IsDir fi); [done|].
  destruct (strconv.ParseUint _) as [slice|]; [|done].
  pose proof (open_new_fragment slice st) as Hstep.
  destruct (newFragment _ slice st) as [frag st1].
  destruct (frag_Open frag st1) as [err st2].
  destruct Hstep as (-> & -> & -> & Hslice & Hslice' & Hopened).
  rewrite Hslice.
  destruct (Fragment_Open _ _ _) as [[err|] w]; [done|].
  cbn [fst snd] in *. by rewrite Hslice', Hopened.
Qed.

Lemma openFragments_range_app (pre rest : list FileInfo) st :
  openFragments_range (pre ++ rest) st =
    match openFragments_range pre st with
    | (None, st0) => openFragments_range rest st0
    | (Some err, st0) => (Some err, st0)
    end.
Proof.
  revert st. induction pre as [|fi pre IH]; intros st; [done|].
  rewrite <- app_comm_cons, !openFragments_range_cons.
  destruct (recognised fi) as [slice|]; [|apply IH].
  destruct (Fragment_Open _ _ _) as [[err|] w]; [done|apply IH].
Qed.

(** [openFragments] step by step. *)
Lemma openFragments_spec st :
  openFragments st =
    let dir := filepath.Join [path (view st); str "fragments"] in
    match os_Open dir (world st) with
    | (inr err, w) =>
        (if os_IsNotExist err then None else Some err,
         mkState w (heap st) (view st) (log st ++ [EvOsOpen dir]))
    | (inl file, w) =>
        match File_Readdir file w with
        | ((_, Some err), w') =>
            (Some err,
             mkState (File_Close file w').2 (heap st) (view st)
                     (log st ++ [EvOsOpen dir; EvReaddir file; EvFileClose file]))
        | ((fis, None), w') =>
            let '(res, st1) :=
              openFragments_range fis
                (mkState w' (heap st) (view st)
                         (log st ++ [EvOsOpen dir; EvReaddir file])) in
            (res,
             mkState (File_Close file (world st1)).2 (heap st1) (view st1)
                     (log st1 ++ [EvFileClose file]))
        end
    end.
Proof.
  unfold openFragments. cbn zeta. rewrite call_spec.
  destruct (os_Open _ _) as [[file|err] w]; cbn [fst snd].
  - rewrite call_spec. cbn [world heap view log].
    destruct (File_Readdir file w) as [[fis [err|]] w']; cbn [fst snd].
    + rewrite call_spec. cbn [fst snd world heap view log].
      by rewrite <- !app_assoc.
    + rewrite <- app_assoc. cbn [app].
      destruct (openFragments_range fis _) as [res st1].
      by rewrite call_spec.
  - by destruct (os_IsNotExist err).
Qed.

(** *** The invariant of the registry *)

Lemma registry_inv_frame st (w : W) (lg : list event) :
  registry_inv st → registry_inv (mkState w (heap st) (view st) lg).
Proof. done. Qed.

Lemma registry_inv_opened slice (w : W) st :
  registry_inv st → registry_inv (opened slice w st).
Proof.
  intros Hinv slice' frag. unfold opened. cbn.
  destruct (decide (slice = slice')) as [<-|Hne].
  - rewrite lookup_insert_eq. intros [= <-]. eexists. split.
    + by rewrite lookup_app_r, Nat.sub_diag.
    + done.
  - rewrite lookup_insert_ne by done. intros Hreg.
    destruct (Hinv _ _ Hreg) as (f & Hf & Hs).
    exists f. split; [|done]. by apply lookup_app_l_Some.
Qed.

Lemma registry_inv_open_failed slice (w : W) st :
  registry_inv st → registry_inv (open_failed slice w st).
Proof.
  intros Hinv slice' frag Hreg.
  destruct (Hinv _ _ Hreg) as (f & Hf & Hs).
  exists f. split; [|done]. by apply lookup_app_l_Some.
Qed.

Lemma registry_inv_empty (w : W) (h : list Fragment) (v : View) (lg : list event) :
  registry_inv (mkState w h (set_fragments ∅ v) lg).
Proof. intros slice frag. cbn. by rewrite lookup_empty. Qed.

Lemma registry_inv_create slice st :
  registry_inv st → registry_inv (CreateFragmentIfNotExists slice st).2.
Proof.
  intros Hinv. unfold CreateFragmentIfNotExists.
  destruct (fragments (view st) !! slice) as [l|] eqn:Hreg.
  - by rewrite (create_registered _ _ _ Hreg).
  - rewrite (create_fresh _ _ Hreg).
    destruct (Fragment_Open _ _ _) as [[err|] w]; cbn [snd].
    + by apply registry_inv_open_failed.
    + by apply registry_inv_opened.
Qed.

Lemma registry_inv_range (fis : list FileInfo) st :
  registry_inv st → registry_inv (openFragments_range fis st).2.
Proof.
  revert st. induction fis as [|fi fis IH]; intros st Hinv; [done|].
  rewrite openFragments_range_cons.
  destruct (recognised fi) as [slice|]; [|by apply IH].
  destruct (Fragment_Open _ _ _) as [[err|] w]; cbn [snd].
  - by apply registry_inv_open_failed.
  - by apply IH, registry_inv_opened.
Qed.

Lemma registry_inv_openFragments st :
  registry_inv st → registry_inv (openFragments st).2.
Proof.
  intros Hinv. rewrite openFragments_spec. cbn zeta.
  destruct (os_Open _ _) as [[file|err] w]; [|done].
  destruct (File_Readdir file w) as [[fis [err|]] w']; [done|].
  pose proof (registry_inv_range fis
    (mkState w' (heap st) (view st)
       (log st ++ [EvOsOpen (filepath.Join [path (view st); str "fragments"]);
                   EvReaddir file]))) as Hr.
  destruct (openFragments_range fis _) as [res st1].
  apply (registry_inv_frame st1). by apply Hr.
Qed.

Lemma registry_inv_Close st : registry_inv (Close st).2.
Proof.
  destruct (Close_spec st) as [w ->]. apply registry_inv_empty.
Qed.

Lemma registry_inv_NewView (w : W) (p d f n : gostring) :
  registry_inv (mkState w [] (NewView p d f n) []).
Proof. intros slice frag. cbn. by rewrite lookup_empty. Qed.

(** C6.  When a recognised entry fails to open, the loop of
    [openFragments] stops there: whatever entries follow, the result is
    the same, the fragment that failed is not stored, and the call that
    failed, which follows the one for the stats client of the fragment,
    is the last one the loop makes.  The error returned is a new
    one whose message holds the slice and the message of the error of
    [Open]; [openFragments] returns it after closing the directory. *)
Theorem openFragments_aborts_on_open_failure
    (pre rest : list FileInfo) (fi : FileInfo) slice st st0 (e : error) (w : W) :
  openFragments_range pre st = (None, st0) →
  recognised fi = Some slice →
  Fragment_Open (length (heap st0)) (fresh_fragment st0 slice) (tagged slice st0)
    = (Some e, w) →
  openFragments_range (pre ++ fi :: rest) st
    = (Some (open_fragment_error slice e), open_failed slice w st0)
  ∧ open_fragment_error slice e
    = str "open fragment: slice=%!s(uint64=" ++ strconv.FormatUint slice
        ++ str "), err=" ++ e
  ∧ fragments (view (open_failed slice w st0)) = fragments (view st0)
  ∧ events_after (length (log st0)) (open_failed slice w st0)
    = [EvStatsWithTags (str "slice:" ++ fmt.verb_d slice);
       EvFragmentOpen (length (heap st0)) slice]
  ∧ (∀ s (file : File) (w1 w2 : W),
       os_Open (filepath.Join [path (view s); str "fragments"]) (world s)
         = (inl file, w1) →
       File_Readdir file w1 = ((pre ++ fi :: rest, None), w2) →
       st = mkState w2 (heap s) (view s)
              (log s ++ [EvOsOpen (filepath.Join [path (view s); str "fragments"]);
                         EvReaddir file]) →
       openFragments s
       = (Some (open_fragment_error slice e),
          mkState (File_Close file w).2 (heap st0 ++ [fresh_fragment st0 slice])
                  (view st0)
                  (log st0 ++ [EvStatsWithTags (str "slice:" ++ fmt.verb_d slice);
                               EvFragmentOpen (length (heap st0)) slice;
                               EvFileClose file]))).
Proof.
  intros Hpre Hrec Hopen.
  assert (openFragments_range (pre ++ fi :: rest) st
          = (Some (open_fragment_error slice e), open_failed slice w st0)) as Hrange.
  { rewrite openFragments_range_app, Hpre, openFragments_range_cons, Hrec.
    by rewrite Hopen. }
  split; [done|]. split.
  { unfold open_fragment_error, fmt.verb_s_uint64. by rewrite <- !app_assoc. }
  split; [done|]. split.
  { unfold events_after, open_failed. cbn. by rewrite drop_app_length. }
  intros s file w1 w2 Hdir Hls ->.
  rewrite openFragments_spec. cbn zeta. rewrite Hdir, Hls, Hrange.
  unfold open_failed. cbn [world heap view log]. by rewrite <- app_assoc.
Qed.

(** *** [Open] *)

Lemma Open_spec st :
  Open st =
    match Open_steps st with
    | (Some e, st1) => (Some e, (Close st1).2)
    | (None, st1) => (None, st1)
    end.
Proof.
  unfold Open. destruct (Open_steps st) as [[e|] st1]; [|done].
  by destruct (Close st1).
Qed.

(** The three places where the steps of [Open] can fail. *)
Lemma Open_steps_failure st (e : error) st1 :
  Open_steps st = (Some e, st1) →
  let p := path (view st) in
  let p' := filepath.Join [path (view st); str "fragments"] in
  (∃ w, os_MkdirAll p (world st) = (Some e, w)
        ∧ st1 = mkState w (heap st) (view st) (log st ++ [EvMkdirAll p]))
  ∨ (∃ w w', os_MkdirAll p (world st) = (None, w)
             ∧ os_MkdirAll p' w = (Some e, w')
             ∧ st1 = mkState w' (heap st) (view st)
                       (log st ++ [EvMkdirAll p; EvMkdirAll p']))
  ∨ (∃ w w', os_MkdirAll p (world st) = (None, w)
             ∧ os_MkdirAll p' w = (None, w')
             ∧ openFragments (mkState w' (heap st) (view st)
                                (log st ++ [EvMkdirAll p; EvMkdirAll p']))
               = (Some e, st1)).
Proof.
  unfold Open_steps. cbn zeta. rewrite call_spec.
  destruct (os_MkdirAll (path (view st)) (world st)) as [[e1|] w] eqn:H1;
    cbn [fst snd].
  { intros [= <- <-]. left. by exists w. }
  rewrite call_spec. cbn [world heap view log].
  destruct (os_MkdirAll _ w) as [[e2|] w'] eqn:H2; cbn [fst snd].
  { intros [= <- <-]. right; left. exists w, w'. by rewrite <- app_assoc. }
  rewrite <- app_assoc. cbn [app].
  destruct (openFragments _) as [[e3|] st3] eqn:H3; [|done].
  intros [= <- <-]. right; right. by exists w, w'.
Qed.

(** [Open_steps] step by step. *)
Lemma Open_steps_spec st :
  Open_steps st =
    match os_MkdirAll (path (view st)) (world st) with
    | (Some e, w) =>
        (Some e,
         mkState w (heap st) (view st) (log st ++ [EvMkdirAll (path (view st))]))
    | (None, w) =>
        match os_MkdirAll (filepath.Join [path (view st); str "fragments"]) w with
        | (Some e, w') =>
            (Some e,
             mkState w' (heap st) (view st)
                     (log st ++ [EvMkdirAll (path (view st));
                                 EvMkdirAll (filepath.Join [path (view st);
                                                            str "fragments"])]))
        | (None, w') =>
            openFragments
              (mkState w' (heap st) (view st)
                       (log st ++ [EvMkdirAll (path (view st));
                                   EvMkdirAll (filepath.Join [path (view st);
                                                              str "fragments"])]))
        end
    end.
Proof.
  unfold Open_steps. cbn zeta. rewrite call_spec.
  destruct (os_MkdirAll (path (view st)) (world st)) as [[e1|] w];
    cbn [fst snd]; [done|].
  rewrite call_spec. cbn [world heap view log].
  destruct (os_MkdirAll _ w) as [[e2|] w']; cbn [fst snd];
    rewrite <- app_assoc; cbn [app]; [done|].
  by destruct (openFragments _) as [[e3|] st3].
Qed.

(** C4.  [Open] fails exactly when one of its steps fails: the first or
    the second [MkdirAll], or [openFragments].  It then returns the error
    of that step, and the state is the one that [Close] makes of the
    state the step left: the fragments that were in the map are asked to
    close, whatever they answer is not seen, and the map is empty.  After
    the failing step these closes are the only calls: nothing is removed
    from the disk, and with no fragment in the map the world stays as the
    failing step left it.  When no step fails, [Open] returns no error
    and [Close] is not run. *)
Theorem Open_failure_closes_and_returns_error st :
  (∀ (e : error) (w : W),
     os_MkdirAll (path (view st)) (world st) = (Some e, w) →
     Open st
     = (Some e,
        closed (mkState w (heap st) (view st)
                        (log st ++ [EvMkdirAll (path (view st))]))))
  ∧ (∀ (e : error) (w w' : W),
       os_MkdirAll (path (view st)) (world st) = (None, w) →
       os_MkdirAll (filepath.Join [path (view st); str "fragments"]) w
         = (Some e, w') →
       Open st
       = (Some e,
          closed (mkState w' (heap st) (view st)
                    (log st ++ [EvMkdirAll (path (view st));
                                EvMkdirAll (filepath.Join [path (view st);
                                                           str "fragments"])]))))
  ∧ (∀ (res : option error) (w w' : W) st1,
       os_MkdirAll (path (view st)) (world st) = (None, w) →
       os_MkdirAll (filepath.Join [path (view st); str "fragments"]) w
         = (None, w') →
       openFragments
         (mkState w' (heap st) (view st)
                  (log st ++ [EvMkdirAll (path (view st));
                              EvMkdirAll (filepath.Join [path (view st);
                                                         str "fragments"])]))
         = (res, st1) →
       Open st = match res with
                 | Some e => (Some e, closed st1)
                 | None => (None, st1)
                 end)
  ∧ (∀ (e : error) st',
       Open st = (Some e, st') →
       ∃ st1,
         Open_steps st = (Some e, st1)
         ∧ Close st1 = (None, st')
         ∧ st' = closed st1
         ∧ ((∃ w, os_MkdirAll (path (view st)) (world st) = (Some e, w)
                  ∧ st1 = mkState w (heap st) (view st)
                            (log st ++ [EvMkdirAll (path (view st))]))
            ∨ (∃ w w',
                 os_MkdirAll (path (view st)) (world st) = (None, w)
                 ∧ os_MkdirAll (filepath.Join [path (view st); str "fragments"]) w
                   = (Some e, w')
                 ∧ st1 = mkState w' (heap st) (view st)
                           (log st ++ [EvMkdirAll (path (view st));
                                       EvMkdirAll (filepath.Join
                                                     [path (view st);
                                                      str "fragments"])]))
            ∨ (∃ w w',
                 os_MkdirAll (path (view st)) (world st) = (None, w)
                 ∧ os_MkdirAll (filepath.Join [path (view st); str "fragments"]) w
                   = (None, w')
                 ∧ openFragments
                     (mkState w' (heap st) (view st)
                        (log st ++ [EvMkdirAll (path (view st));
                                    EvMkdirAll (filepath.Join
                                                  [path (view st);
                                                   str "fragments"])]))
                   = (Some e, st1))))
  ∧ (∀ st1 : State W,
       fragments (view (closed st1)) = ∅
       ∧ heap (closed st1) = heap st1
       ∧ same_settings (view st1) (view (closed st1))
       ∧ events_after (length (log st1)) (closed st1)
         = EvFragmentClose <$> (range_order (world st1) (fragments (view st1))).*2
       ∧ world (closed st1)
         = close_each (heap st1)
                      (range_order (world st1) (fragments (view st1))).*2
                      (world st1)
       ∧ (fragments (view st1) = ∅ →
          world (closed st1) = world st1 ∧ log (closed st1) = log st1)).
Proof.
  split; [|split; [|split; [|split]]].
  - intros e w H1. by rewrite Open_spec, Open_steps_spec, H1, Close_closed.
  - intros e w w' H1 H2.
    by rewrite Open_spec, Open_steps_spec, H1, H2, Close_closed.
  - intros res w w' st1 H1 H2 H3.
    rewrite Open_spec, Open_steps_spec, H1, H2, H3.
    destruct res as [e|]; [by rewrite Close_closed|done].
  - intros e st'. rewrite Open_spec.
    destruct (Open_steps st) as [[e1|] st1] eqn:Hsteps; [|done].
    rewrite Close_closed. cbn [snd].
    intros Heq. apply pair_equal_spec in Heq as [He <-].
    injection He as ->. exists st1.
    split; [done|]. split; [apply Close_closed|]. split; [done|].
    destruct (Open_steps_failure _ _ _ Hsteps)
      as [(w1 & H1 & ->)|[(w1 & w2 & H1 & H2 & ->)|(w1 & w2 & H1 & H2 & H3)]].
    + left. by exists w1.
    + right; left. by exists w1, w2.
    + right; right. by exists w1, w2.
  - intros st1. unfold closed, events_after.
    cbn [world heap view log fragments set_fragments].
    rewrite drop_app_length. repeat split.
    all: match goal with Hempty : _ = ∅ |- _ =>
           rewrite Hempty, range_order_empty end; cbn.
    + done.
    + by rewrite app_nil_r.
Qed.

(** *** [CreateFragmentIfNotExists] called again *)











(** *** The invariant of the registry, for every operation *)

Lemma registry_inv_Open st : registry_inv st → registry_inv (Open st).2.
Proof.
  intros Hinv. rewrite Open_spec.
  assert (registry_inv (Open_steps st).2) as Hsteps.
  { unfold Open_steps. cbn zeta. rewrite call_spec.
    destruct (os_MkdirAll (path (view st)) (world st)) as [[e1|] w]; [done|].
    cbn [fst snd]. rewrite call_spec. cbn [world heap view log].
    destruct (os_MkdirAll _ w) as [[e2|] w']; [done|]. cbn [fst snd].
    pose proof (registry_inv_openFragments
      (mkState w' (heap st) (view st)
         ((log st ++ [EvMkdirAll (path (view st))])
            ++ [EvMkdirAll (filepath.Join [path (view st); str "fragments"])]))
      Hinv) as Hopen.
    by destruct (openFragments _) as [[e3|] st3]. }
  destruct (Open_steps st) as [[e|] st1]; [|done].
  apply registry_inv_Close.
Qed.

Lemma registry_inv_routes
    (op : loc → Fragment → N → N → W → (bool * option error) * W)
    (ev : loc → N → N → event) slice (bitmapID profileID : N) st
    (res : outcome (bool * option error) * State W) :
  routes_to op ev slice bitmapID profileID st res →
  registry_inv st → registry_inv res.2.
Proof.
  intros (fr & err & st1 & Hc & Hres) Hinv.
  pose proof (registry_inv_create slice st Hinv) as Hinv1.
  rewrite Hc in Hinv1. cbn [snd] in Hinv1.
  destruct err as [e|].
  - by rewrite Hres.
  - destruct Hres as (l & changed & err' & w' & _ & _ & _ & ->).
    by apply (registry_inv_frame st1).
Qed.

(** C7.  The invariant of the registry: every fragment stored under a
    slice is on the heap and reports that slice as its own.  The map of a
    new view has it, and [openFragments], [CreateFragmentIfNotExists] and
    [Close] keep it, and so do [Open], [SetBit] and [ClearBit], which are
    made of them. *)
Theorem registry_inv_preserved :
  (∀ (w : W) (p d f n : gostring),
     registry_inv (mkState w [] (NewView p d f n) []))
  ∧ (∀ st,
       registry_inv st →
       registry_inv (openFragments st).2
       ∧ (∀ slice, registry_inv (CreateFragmentIfNotExists slice st).2)
       ∧ registry_inv (Close st).2
       ∧ registry_inv (Open st).2
       ∧ (∀ SliceWidth bitmapID profileID : N,
            registry_inv (SetBit SliceWidth bitmapID profileID st).2
            ∧ registry_inv (ClearBit SliceWidth bitmapID profileID st).2)).
Proof.
  split; [apply registry_inv_NewView|].
  intros st Hinv. split; [|split; [|split; [|split]]].
  - by apply registry_inv_openFragments.
  - intros slice. by apply registry_inv_create.
  - apply registry_inv_Close.
  - by apply registry_inv_Open.
  - intros SliceWidth b p. split.
    + by apply (registry_inv_routes _ _ _ _ _ _ _ (SetBit_routes SliceWidth b p st)).
    + by apply (registry_inv_routes _ _ _ _ _ _ _ (ClearBit_routes SliceWidth b p st)).
Qed.

(** *** Discovery *)

Lemma register_from_dom (base : nat) (slices : list N) (m : gmap N loc) :
  dom (register_from base slices m) = dom m ∪ list_to_set slices.
Proof.
  revert base m. induction slices as [|s slices IH]; intros base m; cbn.
  - by rewrite (right_id_L ∅ (∪)).
  - rewrite IH, dom_insert_L, (comm_L (∪) {[s]} (dom m)).
    by rewrite <- (assoc_L (∪)).
Qed.

Lemma register_from_other (base : nat) (slices : list N) (m : gmap N loc) s :
  s ∉ slices → register_from base slices m !! s = m !! s.
Proof.
  revert base m. induction slices as [|s' slices IH]; intros base m Hs; [done|].
  apply not_elem_of_cons in Hs as [Hne Hs]. cbn.
  rewrite IH by done. by rewrite lookup_insert_ne.
Qed.

Lemma register_from_lookup (base : nat) (slices : list N) (m : gmap N loc) s :
  s ∈ slices →
  ∃ i, slices !! i = Some s
       ∧ register_from base slices m !! s = Some (base + i)%nat.
Proof.
  revert base m. induction slices as [|s' slices IH]; intros base m Hs.
  { by apply elem_of_nil in Hs. }
  cbn. destruct (decide (s ∈ slices)) as [Hin|Hnotin].
  - destruct (IH (S base) (<[s' := base]> m) Hin) as (i & Hi & Hl).
    exists (S i). split; [done|]. rewrite Hl. f_equal. lia.
  - apply elem_of_cons in Hs as [->|?]; [|done].
    exists 0%nat. split; [done|].
    rewrite register_from_other by done.
    rewrite lookup_insert_eq. f_equal. lia.
Qed.

(** The heap and the map after a scan that returned no error. *)
Lemma openFragments_range_success (fis : list FileInfo) st st' :
  openFragments_range fis st = (None, st') →
  heap st' = heap st ++ (stored_fragment st <$> omap recognised fis)
  ∧ view st'
    = set_fragments
        (register_from (length (heap st)) (omap recognised fis)
                       (fragments (view st)))
        (view st).
Proof.
  revert st. induction fis as [|fi fis IH]; intros st.
  { intros [= <-]. cbn. rewrite app_nil_r. split; [done|].
    by destruct (view st). }
  rewrite openFragments_range_cons. cbn [omap list_omap].
  destruct (recognised fi) as [slice|]; [|apply IH].
  destruct (Fragment_Open _ _ _) as [[err|] w]; [done|].
  intros Hrange. destruct (IH _ Hrange) as [Hheap Hview].
  split.
  - rewrite Hheap. cbn [heap opened fmap list_fmap]. by rewrite <- app_assoc.
  - rewrite Hview. cbn [heap opened view fragments set_fragments].
    rewrite length_app. cbn [length]. by rewrite Nat.add_1_r.
Qed.

Lemma openFragments_range_registers (fis : list FileInfo) st st' :
  openFragments_range fis st = (None, st') →
  dom (fragments (view st'))
  = dom (fragments (view st)) ∪ list_to_set (omap recognised fis)
  ∧ ∀ slice,
      slice ∈ omap recognised fis →
      ∃ (l : loc) f,
        fragments (view st') !! slice = Some l
        ∧ heap st' !! l = Some f
        ∧ Fragment_Slice f = slice
        ∧ f_path f = FragmentPath (view st) slice.
Proof.
  intros Hrange.
  destruct (openFragments_range_success _ _ _ Hrange) as [Hheap Hview].
  rewrite Hview, Hheap. cbn [fragments set_fragments]. split.
  - apply register_from_dom.
  - intros slice Hin.
    destruct (register_from_lookup (length (heap st)) _
                (fragments (view st)) _ Hin) as (i & Hi & Hl).
    exists (length (heap st) + i)%nat, (stored_fragment st slice).
    split; [done|]. split; [|done].
    rewrite lookup_app_r by lia.
    replace (length (heap st) + i - length (heap st))%nat with i by lia.
    by rewrite list_lookup_fmap, Hi.
Qed.

(** *** [MaxSlice] *)

Lemma foldl_max_spec (ks : list N) (a : N) :
  let m := foldl (λ max slice, if max <? slice then slice else max) a ks in
  a ≤ m ∧ (∀ k, k ∈ ks → k ≤ m) ∧ (m = a ∨ m ∈ ks).
Proof.
  revert a. induction ks as [|k ks IH]; intros a; cbn.
  { split; [done|]. split; [|by left]. intros k Hk. by apply elem_of_nil in Hk. }
  destruct (IH (if a <? k then k else a)) as (Hge & Hall & Hmem).
  destruct (N.ltb_spec a k) as [Hlt|Hle].
  - split; [lia|]. split.
    + intros k' [->|Hk']%elem_of_cons; [done|by apply Hall].
    + right. destruct Hmem as [->|Hmem]; [left|by right].
  - split; [done|]. split.
    + intros k' [->|Hk']%elem_of_cons; [lia|by apply Hall].
    + destruct Hmem as [->|Hmem]; [by left|right; by right].
Qed.

Lemma elem_of_range_keys (w : W) (m : gmap N loc) (k : N) :
  k ∈ (range_order w m).*1 ↔ k ∈ dom m.
Proof.
  rewrite elem_of_dom, list_elem_of_fmap. split.
  - intros ([k' l] & -> & Hin). apply elem_of_range_order in Hin. by eexists.
  - intros [l Hl]. exists (k, l). split; [done|]. by apply elem_of_range_order.
Qed.

(** [MaxSlice] is the largest key of the map, and zero for the empty
    map, in whatever order the keys are visited. *)
Lemma MaxSlice_spec st :
  (fragments (view st) = ∅ → MaxSlice st = 0)
  ∧ (∀ slice, slice ∈ dom (fragments (view st)) → slice ≤ MaxSlice st)
  ∧ (fragments (view st) ≠ ∅ → MaxSlice st ∈ dom (fragments (view st))).
Proof.
  unfold MaxSlice.
  destruct (foldl_max_spec (range_order (world st) (fragments (view st))).*1 0)
    as (_ & Hall & Hmem).
  split; [|split].
  - intros Hempty. rewrite Hempty, range_order_empty. done.
  - intros slice Hin. apply Hall. by apply elem_of_range_keys.
  - intros Hne. destruct Hmem as [Hzero|Hmem]; [|by apply elem_of_range_keys in Hmem].
    apply map_choose in Hne as (k & l & Hkl).
    assert (k ∈ dom (fragments (view st))) as Hk by (apply elem_of_dom; eauto).
    pose proof (Hall k (proj2 (elem_of_range_keys _ _ _) Hk)) as Hle.
    rewrite Hzero in *. by replace k with 0 in Hk by lia.
Qed.

(** [Open] on a directory that lists as [fis]: if [Open] returns no
    error, the scan of [fis] returned none and left the heap and the view
    that [Open] leaves. *)
Lemma Open_lists st st' (fis : list FileInfo) (file : File) (wa wb wc wd : W) :
  let p := path (view st) in
  let p' := filepath.Join [path (view st); str "fragments"] in
  os_MkdirAll p (world st) = (None, wa) →
  os_MkdirAll p' wa = (None, wb) →
  os_Open p' wb = (inl file, wc) →
  File_Readdir file wc = ((fis, None), wd) →
  Open st = (None, st') →
  ∃ st1,
    openFragments_range fis
      (mkState wd (heap st) (view st)
               (log st ++ [EvMkdirAll p; EvMkdirAll p'; EvOsOpen p'; EvReaddir file]))
    = (None, st1)
    ∧ heap st' = heap st1 ∧ view st' = view st1.
Proof.
  intros p p' Ha Hb Hc Hd. rewrite Open_spec. unfold Open_steps. cbn zeta.
  rewrite call_spec. fold p. rewrite Ha. cbn [fst snd].
  rewrite call_spec. cbn [world heap view log]. fold p'. rewrite Hb.
  cbn [fst snd]. rewrite openFragments_spec. cbn [world heap view log].
  cbn zeta. fold p'. rewrite Hc, Hd.
  rewrite <- !app_assoc. cbn [app].
  destruct (openFragments_range fis _) as [[e|] st1]; [done|].
  intros [= <-]. by exists st1.
Qed.

(** C3.  The scan of [Open] skips the entries that are directories and
    the entries whose name [ParseUint] does not take (it takes the
    non-empty strings of decimal digits that fit in 64 bits) without a
    trace, and when it returns no error every other entry has a fragment
    stored under the slice its name reads as.  When the directory lists
    the files 3, 7, x and 12.tmp and [Open] returns no error, the map of
    a new view holds the slices 3 and 7 and no other, and [MaxSlice] is
    7.  [MaxSlice] is the largest key of the map and zero
    for the empty map. *)
Theorem openFragments_discovers_numbered_files :
  (∀ (fi : FileInfo) slice,
     recognised fi = Some slice
     ↔ fi_IsDir fi = false
       ∧ filepath.Base (fi_Name fi) ≠ []
       ∧ Forall (λ c, strconv.is_digit c = true) (filepath.Base (fi_Name fi))
       ∧ strconv.decimal_value (filepath.Base (fi_Name fi)) 0 = slice
       ∧ slice ≤ strconv.maxUint64)
  ∧ (∀ (fi : FileInfo) (fis : list FileInfo) st,
       recognised fi = None →
       openFragments_range (fi :: fis) st = openFragments_range fis st)
  ∧ (∀ (fis : list FileInfo) st st',
       openFragments_range fis st = (None, st') →
       dom (fragments (view st'))
       = dom (fragments (view st)) ∪ list_to_set (omap recognised fis)
       ∧ ∀ slice,
           slice ∈ omap recognised fis →
           ∃ (l : loc) f,
             fragments (view st') !! slice = Some l
             ∧ heap st' !! l = Some f
             ∧ Fragment_Slice f = slice
             ∧ f_path f = FragmentPath (view st) slice)
  ∧ (∀ st st' (file : File) (wa wb wc wd : W),
       fragments (view st) = ∅ →
       os_MkdirAll (path (view st)) (world st) = (None, wa) →
       os_MkdirAll (filepath.Join [path (view st); str "fragments"]) wa
         = (None, wb) →
       os_Open (filepath.Join [path (view st); str "fragments"]) wb
         = (inl file, wc) →
       File_Readdir file wc = ((Sim.four_entries, None), wd) →
       Open st = (None, st') →
       dom (fragments (view st')) = {[3; 7]} ∧ MaxSlice st' = 7)
  ∧ (∀ st,
       (fragments (view st) = ∅ → MaxSlice st = 0)
       ∧ (∀ slice, slice ∈ dom (fragments (view st)) → slice ≤ MaxSlice st)
       ∧ (fragments (view st) ≠ ∅ → MaxSlice st ∈ dom (fragments (view st)))).
Proof.
  split; [|split; [|split; [|split]]].
  - intros fi slice. unfold recognised.
    destruct (fi_IsDir fi); [by intuition|].
    rewrite ParseUint_spec. by intuition.
  - intros fi fis st Hskip. by rewrite openFragments_range_cons, Hskip.
  - apply openFragments_range_registers.
  - intros st st' file wa wb wc wd Hempty Ha Hb Hc Hd Hopen.
    destruct (Open_lists _ _ _ _ _ _ _ _ Ha Hb Hc Hd Hopen)
      as (st1 & Hrange & _ & Hview).
    destruct (openFragments_range_registers _ _ _ Hrange) as [Hdom _].
    cbn [view] in Hdom. rewrite Hempty, <- Hview in Hdom.
    assert (dom (fragments (view st')) = {[3; 7]}) as Hdom'.
    { rewrite Hdom. change (omap recognised Sim.four_entries) with [3; 7].
      set_solver. }
    split; [done|].
    destruct (MaxSlice_spec st') as (_ & Hall & Hmem).
    assert (fragments (view st') ≠ ∅) as Hne.
    { intros Heq. rewrite Heq in Hdom'. set_solver. }
    specialize (Hmem Hne). rewrite Hdom' in Hmem, Hall.
    assert (7 ≤ MaxSlice st') by (apply Hall; set_solver).
    apply elem_of_union in Hmem as [Hm|Hm]; apply elem_of_singleton in Hm; lia.
  - apply MaxSlice_spec.
Qed.

End Properties.

(** ** Properties of the layout names and of sorting *)

Section SortingProperties.

Lemma N_of_ascii_inj (x y : ascii) : N_of_ascii x = N_of_ascii y → x = y.
Proof.
  intros Heq. rewrite <- (ascii_N_embedding x), <- (ascii_N_embedding y).
  by rewrite Heq.
Qed.

Lemma string_less_irrefl (a : gostring) : string_less a a = false.
Proof.
  induction a as [|x a IH]; [done|]. cbn.
  by rewrite N.ltb_irrefl.
Qed.

Lemma string_less_trans (a b c : gostring) :
  string_less a b = true → string_less b c = true → string_less a c = true.
Proof.
  revert b c. induction a as [|x a IH]; intros [|y b] [|z c]; cbn; try done.
  destruct (N.ltb_spec (N_of_ascii x) (N_of_ascii y)),
           (N.ltb_spec (N_of_ascii y) (N_of_ascii x)),
           (N.ltb_spec (N_of_ascii y) (N_of_ascii z)),
           (N.ltb_spec (N_of_ascii z) (N_of_ascii y)),
           (N.ltb_spec (N_of_ascii x) (N_of_ascii z)),
           (N.ltb_spec (N_of_ascii z) (N_of_ascii x));
    try done; try lia.
  apply IH.
Qed.

Lemma string_less_asym (a b : gostring) :
  string_less a b = true → string_less b a = false.
Proof.
  revert b. induction a as [|x a IH]; intros [|y b]; cbn; try done.
  destruct (N.ltb_spec (N_of_ascii x) (N_of_ascii y)),
           (N.ltb_spec (N_of_ascii y) (N_of_ascii x));
    try done; try lia.
  apply IH.
Qed.

Lemma string_less_total (a b : gostring) :
  string_less a b = false → string_less b a = false → a = b.
Proof.
  revert b. induction a as [|x a IH]; intros [|y b]; cbn; try done.
  destruct (N.ltb_spec (N_of_ascii x) (N_of_ascii y)),
           (N.ltb_spec (N_of_ascii y) (N_of_ascii x));
    try done.
  intros Hab Hba. f_equal; [apply N_of_ascii_inj; lia|by apply IH].
Qed.

Lemma less_orders_by_name {A : Type} (nm : A → gostring)
    (Less : list (option A) → Z → Z → outcome bool) :
  (∀ p i j,
     Less p i j = match index p i, index p j with
                  | Some (Some v), Some (Some v') =>
                      Returns (string_less (nm v) (nm v'))
                  | _, _ => Panics
                  end) →
  orders_by_name nm Less.
Proof.
  intros HLess p. repeat split.
  - rewrite HLess. intros Hp (v & v' & Hi & Hj). by rewrite Hi, Hj in Hp.
  - rewrite HLess. intros Hnot.
    destruct (index p i) as [[v|]|]; try done.
    destruct (index p j) as [[v'|]|]; try done.
    destruct Hnot. eauto.
  - intros i j v v' Hi Hj. by rewrite HLess, Hi, Hj.
  - intros i. rewrite HLess.
    destruct (index p i) as [[v|]|]; try done.
    by rewrite string_less_irrefl.
  - intros i j. rewrite !HLess.
    destruct (index p i) as [[v|]|]; try done.
    destruct (index p j) as [[v'|]|]; try done.
    intros [= Hlt]. by rewrite (string_less_asym _ _ Hlt).
  - intros i j k. rewrite !HLess.
    destruct (index p i) as [[v|]|]; try done.
    destruct (index p j) as [[v'|]|]; try done.
    destruct (index p k) as [[v''|]|]; try done.
    intros [= H1] [= H2]. by rewrite (string_less_trans _ _ _ H1 H2).
  - intros i j v v' Hi Hj. rewrite !HLess, Hi, Hj.
    intros [= H1] [= H2]. by apply string_less_total.
Qed.

Lemma index_Some {A : Type} (p : list A) (i : Z) (x : A) :
  index p i = Some x ↔ (0 ≤ i)%Z ∧ p !! Z.to_nat i = Some x.
Proof.
  unfold index. destruct (Z.leb_spec 0 i); [by intuition|].
  split; [done|]. intros [? _]. lia.
Qed.

Lemma index_is_Some {A : Type} (p : list A) (i : Z) :
  is_Some (index p i) ↔ (0 ≤ i < Z.of_nat (length p))%Z.
Proof.
  split.
  - intros [x [Hi Hx]%index_Some]. apply lookup_lt_Some in Hx. lia.
  - intros [Hi Hlt].
    destruct (lookup_lt_is_Some_2 p (Z.to_nat i)) as [x Hx]; [lia|].
    exists x. by apply index_Some.
Qed.

Lemma index_to_nat {A : Type} (p : list A) (i : Z) :
  (0 ≤ i)%Z → index p i = p !! Z.to_nat i.
Proof. unfold index. by destruct (Z.leb_spec 0 i); [|lia]. Qed.

Lemma swap_transposes {A : Type} : transposes (@swap A).
Proof.
  intros p i j. split.
  { unfold swap. rewrite <- !index_is_Some. split.
    - intros Hp [[x Hx] [y Hy]]. by rewrite Hx, Hy in Hp.
    - intros Hnot. destruct (index p i) as [x|] eqn:Hx; [|done].
      destruct (index p j) as [y|] eqn:Hy; [|done].
      destruct Hnot. eauto. }
  intros p'. unfold swap.
  destruct (index p i) as [x|] eqn:Hx; [|done].
  destruct (index p j) as [y|] eqn:Hy; [|done].
  intros [= <-].
  apply index_Some in Hx as [Hi Hx]. apply index_Some in Hy as [Hj Hy].
  pose proof (lookup_lt_Some _ _ _ Hx) as Hli.
  pose proof (lookup_lt_Some _ _ _ Hy) as Hlj.
  set (ni := Z.to_nat i) in *. set (nj := Z.to_nat j) in *.
  assert (<[nj:=x]> (<[ni:=y]> p) !! nj = Some x) as Hnew_j.
  { apply list_lookup_insert_eq. by rewrite length_insert. }
  assert (<[nj:=x]> (<[ni:=y]> p) !! ni = Some y) as Hnew_i.
  { destruct (decide (ni = nj)) as [Heq|Hne].
    - rewrite Heq in *. rewrite Hnew_j. congruence.
    - rewrite list_lookup_insert_ne by done. by apply list_lookup_insert_eq. }
  split; [by rewrite !length_insert|].
  split; [by apply Permutation_insert_swap|].
  split; [by rewrite !index_to_nat|].
  split; [by rewrite !index_to_nat|].
  split.
  - intros k Hki Hkj. unfold index. destruct (Z.leb_spec 0 k); [|done].
    rewrite !list_lookup_insert_ne; [done|subst ni; lia|subst nj; lia].
  - rewrite (index_to_nat _ i), (index_to_nat _ j) by done.
    fold ni nj. rewrite Hnew_i, Hnew_j. f_equal.
    apply list_eq. intros n.
    destruct (decide (nj = n)) as [<-|Hnj].
    { rewrite list_lookup_insert_eq; [done|]. by rewrite !length_insert. }
    rewrite list_lookup_insert_ne by done.
    destruct (decide (ni = n)) as [<-|Hni].
    { rewrite list_lookup_insert_eq; [done|]. by rewrite !length_insert. }
    by rewrite !list_lookup_insert_ne.
Qed.

(** [Less] of [viewSlice] and of [viewInfoSlice] is a strict total order
    of the names: never true of an element and itself, never true both
    ways, transitive, and false both ways only for equal names.  It
    panics exactly when an index is out of range or the element is nil. *)
Theorem Less_orders_by_name :
  orders_by_name name viewSlice_Less ∧ orders_by_name Name viewInfoSlice_Less.
Proof. split; by apply less_orders_by_name. Qed.

(** [Swap] of [viewSlice] and of [viewInfoSlice] exchanges two elements
    and nothing else: the result is a permutation of the same length, a
    second [Swap] undoes the first, [Len] is as before, and [Less(i, j)]
    after it is [Less(j, i)] before it.  It panics exactly when an index
    is out of range. *)
Theorem Swap_transposes :
  transposes viewSlice_Swap
  ∧ transposes viewInfoSlice_Swap
  ∧ (∀ (p p' : viewSlice) (i j : Z),
       viewSlice_Swap p i j = Returns p' →
       viewSlice_Less p' i j = viewSlice_Less p j i)
  ∧ (∀ (p p' : viewInfoSlice) (i j : Z),
       viewInfoSlice_Swap p i j = Returns p' →
       viewInfoSlice_Less p' i j = viewInfoSlice_Less p j i)
  ∧ (∀ (p p' : viewSlice) (i j : Z),
       viewSlice_Swap p i j = Returns p' →
       viewSlice_Len p' = viewSlice_Len p)
  ∧ (∀ (p p' : viewInfoSlice) (i j : Z),
       viewInfoSlice_Swap p i j = Returns p' →
       viewInfoSlice_Len p' = viewInfoSlice_Len p).
Proof.
  split; [apply swap_transposes|]. split; [apply swap_transposes|].
  split; [|split; [|split]].
  - intros p p' i j Hswap.
    destruct (swap_transposes p i j) as [_ Hsw].
    destruct (Hsw p' Hswap) as (_ & _ & Hi & Hj & _).
    unfold viewSlice_Less. by rewrite Hi, Hj.
  - intros p p' i j Hswap.
    destruct (swap_transposes p i j) as [_ Hsw].
    destruct (Hsw p' Hswap) as (_ & _ & Hi & Hj & _).
    unfold viewInfoSlice_Less. by rewrite Hi, Hj.
  - intros p p' i j Hswap.
    destruct (swap_transposes p i j) as [_ Hsw].
    destruct (Hsw p' Hswap) as (Hlen & _).
    unfold viewSlice_Len. by rewrite Hlen.
  - intros p p' i j Hswap.
    destruct (swap_transposes p i j) as [_ Hsw].
    destruct (Hsw p' Hswap) as (Hlen & _).
    unfold viewInfoSlice_Len. by rewrite Hlen.
Qed.

(** [IsViewInverted] holds exactly of the names that start with
    [inverse]; so not of [standard], and not of a name shorter than
    [inverse]. *)
Theorem IsViewInverted_iff_prefix (name : gostring) :
  (IsViewInverted name = true ↔ ∃ rest, name = ViewInverse ++ rest)
  ∧ ((length name < 7)%nat → IsViewInverted name = false)
  ∧ IsViewInverted ViewStandard = false
  ∧ IsViewInverted ViewInverse = true.
Proof.
  split; [|split; [|done]].
  - unfold IsViewInverted, strings.HasPrefix.
    rewrite andb_true_iff, Nat.leb_le, bool_decide_eq_true. split.
    + intros [_ Htake]. exists (drop (length ViewInverse) name).
      by rewrite <- Htake at 1; rewrite take_drop.
    + intros [rest ->]. split.
      * rewrite length_app. lia.
      * by rewrite take_app_length.
  - intros Hshort. unfold IsViewInverted, strings.HasPrefix.
    apply andb_false_iff. left. apply Nat.leb_gt. by cbn.
Qed.

End SortingProperties.


(** ** The names of the fragment files *)

Section NamingProperties.

Import filepath.

Lemma Clean_below_one (root a : gostring) :
  root ≠ [] → plain a →
  Clean (root ++ Separator :: a) = under (Clean root) a.
Proof.
  intros Hroot Ha. destruct root as [|c root]; [done|].
  unfold Clean. rewrite <- app_comm_cons.
  rewrite app_comm_cons, elements_app_sep.
  rewrite (elements_plain a) by apply Ha.
  rewrite foldl_app. cbn [foldl].
  rewrite (clean_elem_plain _ _ a) by done.
  pose proof (clean_fold_kept (IsPathSeparator c) (elements (c :: root)) []
                (elements_no_separator _) (Forall_nil_2 _)) as Hkept.
  set (out := foldl _ [] (elements (c :: root))) in *.
  apply Forall_rev in Hkept.
  cbn [rev].
  destruct (rev out) as [|e r] eqn:Hrev.
  - cbn [app]. unfold under, gostring_eqb.
    destruct (IsPathSeparator c).
    + rewrite bool_decide_eq_false_2 by done.
      by rewrite bool_decide_eq_true_2.
    + by rewrite bool_decide_eq_true_2.
  - destruct (join_sep_kept (e :: r)) as (Hne & Hnd & Hns);
      [done|exact Hkept|].
    rewrite (join_sep_app (e :: r) [a]) by done.
    change (join_sep [a]) with a.
    unfold under, gostring_eqb.
    destruct (IsPathSeparator c).
    + rewrite bool_decide_eq_false_2 by done.
      rewrite bool_decide_eq_false_2; [done|].
      intros [= Habs]. done.
    + rewrite <- app_comm_cons.
      by rewrite bool_decide_eq_false_2, bool_decide_eq_false_2.
Qed.

(** The directory that [Open] makes and lists. *)
Lemma Join_fragments (v : View) :
  Join [path v; str "fragments"] = under (Clean (path v)) (str "fragments").
Proof.
  destruct (path v) as [|c root] eqn:Hroot; [done|].
  change (Join [c :: root; str "fragments"])
    with (Clean ((c :: root) ++ Separator :: str "fragments")).
  apply Clean_below_one; [done|apply fragments_plain].
Qed.

Lemma FragmentPath_in_directory (v : View) (slice : N) :
  FragmentPath v slice
  = Join [path v; str "fragments"] ++ Separator :: strconv.FormatUint slice.
Proof.
  rewrite FragmentPath_under, Join_fragments. unfold under.
  destruct (gostring_eqb (Clean (path v)) dot); [done|].
  destruct (gostring_eqb (Clean (path v)) [Separator]); [done|].
  by rewrite <- app_assoc.
Qed.

Lemma strip_trailing_plain (d : gostring) :
  d ≠ [] → Forall (λ c, IsPathSeparator c = false) d → strip_trailing d = d.
Proof.
  induction d as [|c d IH]; [done|]. intros _ Hall.
  apply Forall_cons in Hall as [Hc Hall]. cbn.
  destruct d as [|c' d].
  - cbn. by rewrite Hc.
  - rewrite IH by done. done.
Qed.

Lemma strip_trailing_app (x d : gostring) :
  d ≠ [] → Forall (λ c, IsPathSeparator c = false) d →
  strip_trailing (x ++ d) = x ++ d.
Proof.
  intros Hne Hall. induction x as [|c x IH].
  - by apply strip_trailing_plain.
  - cbn. rewrite IH. destruct (x ++ d) eqn:Heq; [|done].
    by apply app_eq_nil in Heq as [_ ?].
Qed.

Lemma Base_last (x d : gostring) :
  plain d → Base (x ++ Separator :: d) = d.
Proof.
  intros (Hne & _ & _ & Hall). unfold Base.
  destruct (x ++ Separator :: d) as [|c p] eqn:Heq.
  { by apply app_eq_nil in Heq as [_ ?]. }
  rewrite <- Heq. change (x ++ Separator :: d) with (x ++ [Separator] ++ d).
  rewrite app_assoc, strip_trailing_app by done.
  rewrite <- app_assoc. cbn [app].
  rewrite elements_app_sep, (elements_plain d), last_snoc by done.
  by destruct d.
Qed.

Lemma Base_plain (d : gostring) : plain d → Base d = d.
Proof.
  intros (Hne & _ & _ & Hall). unfold Base.
  destruct d as [|c d']; [done|].
  by rewrite strip_trailing_plain, elements_plain.
Qed.

(** The file of a slice lies directly in the directory that [Open] makes
    and lists, under the decimal name of the slice, and the scan of
    [openFragments] reads that name back as the slice; so two slices never
    have the same file. *)
Theorem fragment_files_are_found_again (v : View) (slice : N) :
  slice ≤ strconv.maxUint64 →
  FragmentPath v slice
  = Join [path v; str "fragments"] ++ Separator :: strconv.FormatUint slice
  ∧ Base (FragmentPath v slice) = strconv.FormatUint slice
  ∧ recognised (mkFileInfo (Base (FragmentPath v slice)) false) = Some slice
  ∧ (∀ slice', slice' ≤ strconv.maxUint64 →
       FragmentPath v slice' = FragmentPath v slice → slice' = slice).
Proof.
  intros Hn.
  assert (∀ s, Base (FragmentPath v s) = strconv.FormatUint s) as Hbase.
  { intros s. rewrite FragmentPath_in_directory.
    apply Base_last, FormatUint_plain. }
  assert (∀ s, s ≤ strconv.maxUint64 →
               strconv.ParseUint (strconv.FormatUint s) = Some s) as Hparse.
  { intros s Hs. by destruct (FormatUint_spec s Hs) as (_ & _ & ? & _). }
  split; [apply FragmentPath_in_directory|]. split; [apply Hbase|]. split.
  - unfold recognised. cbn [fi_IsDir fi_Name].
    rewrite Hbase, (Base_plain _ (FormatUint_plain slice)). by apply Hparse.
  - intros slice' Hn' Heq.
    apply (f_equal Base) in Heq. rewrite !Hbase in Heq.
    apply (f_equal strconv.ParseUint) in Heq.
    rewrite !Hparse in Heq by done. by injection Heq.
Qed.

End NamingProperties.


(** ** Properties of the operations together *)

Section MoreProperties.

Context {W : Type} `{!Env W}.

Implicit Types (st : State W) (slice : N).

(** *** Every operation is made of the four steps *)

Lemma evolves_call st (w : W) (ev : event) :
  evolves st (mkState w (heap st) (view st) (log st ++ [ev])).
Proof. apply rtc_once, step_call. Qed.

Lemma evolves_trans st st1 st2 :
  evolves st st1 → evolves st1 st2 → evolves st st2.
Proof. unfold evolves. intros H1 H2. by etrans. Qed.

Lemma create_evolves slice st :
  evolves st (CreateFragmentIfNotExists slice st).2.
Proof.
  unfold CreateFragmentIfNotExists.
  destruct (fragments (view st) !! slice) as [l|] eqn:Hreg.
  - rewrite (create_registered _ _ _ Hreg). apply rtc_refl.
  - rewrite (create_fresh _ _ Hreg).
    destruct (Fragment_Open _ _ _) as [[err|] w]; apply rtc_once.
    + apply step_failed.
    + apply step_opened.
Qed.

Lemma range_evolves (fis : list FileInfo) st :
  evolves st (openFragments_range fis st).2.
Proof.
  revert st. induction fis as [|fi fis IH]; intros st; [apply rtc_refl|].
  rewrite openFragments_range_cons.
  destruct (recognised fi) as [slice|]; [|apply IH].
  destruct (Fragment_Open _ _ _) as [[err|] w].
  - apply rtc_once, step_failed.
  - eapply rtc_l; [apply step_opened|apply IH].
Qed.

Lemma openFragments_evolves st : evolves st (openFragments st).2.
Proof.
  rewrite openFragments_spec. cbn zeta.
  destruct (os_Open _ _) as [[file|err] w]; [|apply evolves_call].
  destruct (File_Readdir file w) as [[fis [err|]] w'].
  { apply rtc_once, step_call. }
  pose proof (range_evolves fis
    (mkState w' (heap st) (view st)
       (log st ++ [EvOsOpen (filepath.Join [path (view st); str "fragments"]);
                   EvReaddir file]))) as Hrange.
  destruct (openFragments_range fis _) as [res st1]. cbn [snd] in *.
  eapply rtc_l; [apply step_call|].
  eapply evolves_trans; [exact Hrange|]. apply evolves_call.
Qed.

Lemma Close_evolves st : evolves st (Close st).2.
Proof. destruct (Close_spec st) as [w ->]. apply rtc_once, step_closed. Qed.

Lemma Open_evolves st : evolves st (Open st).2.
Proof.
  rewrite Open_spec.
  assert (evolves st (Open_steps st).2) as Hsteps.
  { unfold Open_steps. cbn zeta. rewrite call_spec.
    destruct (os_MkdirAll (path (view st)) (world st)) as [[e1|] w];
      [apply evolves_call|].
    cbn [fst snd]. rewrite call_spec. cbn [world heap view log].
    destruct (os_MkdirAll _ w) as [[e2|] w']; cbn [fst snd].
    { rewrite <- app_assoc. apply rtc_once, step_call. }
    pose proof (openFragments_evolves
      (mkState w' (heap st) (view st)
         ((log st ++ [EvMkdirAll (path (view st))])
            ++ [EvMkdirAll (filepath.Join [path (view st); str "fragments"])])))
      as Hopen.
    rewrite <- app_assoc in Hopen |- *.
    eapply rtc_l; [apply step_call|].
    by destruct (openFragments _) as [[e3|] st3]. }
  destruct (Open_steps st) as [[e|] st1]; [|done].
  eapply evolves_trans; [exact Hsteps|apply Close_evolves].
Qed.

Lemma routes_evolves
    (op : loc → Fragment → N → N → W → (bool * option error) * W)
    (ev : loc → N → N → event) slice (bitmapID profileID : N) st
    (res : outcome (bool * option error) * State W) :
  routes_to op ev slice bitmapID profileID st res → evolves st res.2.
Proof.
  intros (fr & err & st1 & Hc & Hres).
  pose proof (create_evolves slice st) as Hev.
  rewrite Hc in Hev. cbn [snd] in Hev.
  destruct err as [e|].
  - by rewrite Hres.
  - destruct Hres as (l & changed & err' & w' & _ & _ & _ & ->).
    eapply evolves_trans; [exact Hev|apply evolves_call].
Qed.

(** *** What the steps keep *)

Lemma evolves_heap st st' : evolves st st' → heap st `prefix_of` heap st'.
Proof.
  induction 1 as [st|st st1 st2 Hstep _ IH]; [done|].
  etrans; [|exact IH].
  destruct Hstep; cbn; try done; by apply prefix_app_r.
Qed.

Lemma evolves_settings st st' :
  evolves st st' → same_settings (view st) (view st').
Proof.
  induction 1 as [st|st st1 st2 Hstep _ IH]; [by repeat split|].
  assert (same_settings (view st) (view st1)) as H1
    by (destruct Hstep; by repeat split).
  destruct H1 as (?&?&?&?&?&?&?), IH as (?&?&?&?&?&?&?).
  repeat split; congruence.
Qed.

Lemma stored_fragment_settings st st' slice :
  same_settings (view st) (view st') →
  stored_fragment st' slice = stored_fragment st slice.
Proof.
  intros (Hp & Hd & Hf & Hn & Hs & Ha & Hl).
  unfold stored_fragment, fresh_fragment, FragmentPath. cbn zeta.
  by rewrite Hp, Hd, Hf, Hn, Hs, Ha, Hl.
Qed.

Lemma step_wired st st' : step st st' → wired st → wired st'.
Proof.
  intros Hstep Hw. destruct Hstep as [st w evs|st s w|st s w|st w evs].
  - exact Hw.
  - intros slice l. unfold opened. cbn [view heap fragments set_fragments].
    destruct (decide (s = slice)) as [<-|Hne].
    + rewrite lookup_insert_eq. intros [= <-].
      by rewrite lookup_app_r, Nat.sub_diag.
    + rewrite lookup_insert_ne by done. intros Hreg.
      apply lookup_app_l_Some. by apply Hw.
  - intros slice l Hreg. unfold open_failed. cbn [heap].
    apply lookup_app_l_Some. by apply Hw.
  - intros slice l. cbn. by rewrite lookup_empty.
Qed.

Lemma evolves_wired st st' : evolves st st' → wired st → wired st'.
Proof.
  induction 1 as [st|st st1 st2 Hstep _ IH]; [done|].
  intros Hw. by apply IH, (step_wired st).
Qed.

Lemma evolves_keeps st st' : evolves st st' → keeps st st'.
Proof.
  intros Hev. pose proof (evolves_heap _ _ Hev) as Hpre.
  split; [|split].
  - intros l f Hl. by eapply prefix_lookup_Some.
  - by apply prefix_length.
  - by apply evolves_settings.
Qed.

(** No operation of the view changes or removes a fragment that is on the
    heap, and none changes the path, the names, the stats client, the
    attribute store or the log output of the view: a fragment is written
    to only between its construction and its entry into the map. *)
Theorem operations_keep_fragments_and_settings st :
  keeps st (Open st).2
  ∧ keeps st (openFragments st).2
  ∧ keeps st (Close st).2
  ∧ (∀ slice, keeps st (CreateFragmentIfNotExists slice st).2)
  ∧ (∀ SliceWidth bitmapID profileID : N,
       keeps st (SetBit SliceWidth bitmapID profileID st).2
       ∧ keeps st (ClearBit SliceWidth bitmapID profileID st).2).
Proof.
  split; [apply evolves_keeps, Open_evolves|].
  split; [apply evolves_keeps, openFragments_evolves|].
  split; [apply evolves_keeps, Close_evolves|].
  split; [intros slice; apply evolves_keeps, create_evolves|].
  intros SW b p. split; apply evolves_keeps.
  - apply (routes_evolves _ _ _ _ _ _ _ (SetBit_routes SW b p st)).
  - apply (routes_evolves _ _ _ _ _ _ _ (ClearBit_routes SW b p st)).
Qed.

Lemma wired_NewView (w : W) (p d f n : gostring) :
  wired (mkState w [] (NewView p d f n) []).
Proof. intros slice l. cbn. by rewrite lookup_empty. Qed.

(** Every fragment in the map is wired to the view: it has the path
    [FragmentPath] gives its slice, the database, frame and view names of
    the view, the log output and the attribute store of the view, and the
    stats client of the view tagged with its slice.  A new view has this
    and every operation keeps it. *)
Theorem registered_fragments_are_wired :
  (∀ (w : W) (p d f n : gostring), wired (mkState w [] (NewView p d f n) []))
  ∧ (∀ st,
       wired st →
       wired (Open st).2
       ∧ wired (Close st).2
       ∧ (∀ slice, wired (CreateFragmentIfNotExists slice st).2)
       ∧ (∀ SliceWidth bitmapID profileID : N,
            wired (SetBit SliceWidth bitmapID profileID st).2
            ∧ wired (ClearBit SliceWidth bitmapID profileID st).2))
  ∧ (∀ st slice (l : loc),
       wired st →
       fragments (view st) !! slice = Some l →
       ∃ f, heap st !! l = Some f
            ∧ Fragment_Slice f = slice
            ∧ f_path f = FragmentPath (view st) slice
            ∧ f_db f = db (view st)
            ∧ f_frame f = frame (view st)
            ∧ f_view f = name (view st)
            ∧ f_LogOutput f = LogOutput (view st)
            ∧ f_BitmapAttrStore f = BitmapAttrStore (view st)
            ∧ f_stats f
              = Stats_WithTags (stats (view st))
                               (str "slice:" ++ strconv.FormatUint slice)).
Proof.
  split; [apply wired_NewView|]. split.
  - intros st Hw.
    split; [apply (evolves_wired st); [apply Open_evolves|done]|].
    split; [apply (evolves_wired st); [apply Close_evolves|done]|].
    split; [intros slice; apply (evolves_wired st); [apply create_evolves|done]|].
    intros SW b p. split; apply (evolves_wired st); try done.
    + apply (routes_evolves _ _ _ _ _ _ _ (SetBit_routes SW b p st)).
    + apply (routes_evolves _ _ _ _ _ _ _ (ClearBit_routes SW b p st)).
  - intros st slice l Hw Hreg. exists (stored_fragment st slice).
    split; [by apply Hw|]. by repeat split.
Qed.

(** [Fragment(slice)] after [CreateFragmentIfNotExists(slice)] is the
    pointer that the call returned, nil after a failure.  The entries of
    the other slices are as before, a failed call leaves the whole map as
    it was, a call for a slice that is in the map leaves the whole state
    as it was, and a fragment made by the call is a new location. *)
Theorem CreateFragmentIfNotExists_then_Fragment
    slice st (fr : option loc) (err : option error) st' :
  CreateFragmentIfNotExists slice st = ((fr, err), st') →
  Fragment_of slice st' = fr
  ∧ (∀ s, s ≠ slice → Fragment_of s st' = Fragment_of s st)
  ∧ (err ≠ None → fragments (view st') = fragments (view st))
  ∧ (Fragment_of slice st ≠ None → st' = st ∧ fr = Fragment_of slice st)
  ∧ (Fragment_of slice st = None → err = None →
     fr = Some (length (heap st)) ∧ heap st !! length (heap st) = None).
Proof.
  unfold CreateFragmentIfNotExists, Fragment_of, fragment.
  destruct (fragments (view st) !! slice) as [l|] eqn:Hreg.
  - rewrite (create_registered _ _ _ Hreg). intros [= <- <- <-].
    rewrite Hreg. by repeat split.
  - rewrite (create_fresh _ _ Hreg).
    destruct (Fragment_Open _ _ _) as [[e|] w]; intros [= <- <- <-].
    + by repeat split.
    + cbn [view opened fragments set_fragments].
      rewrite lookup_insert_eq. repeat split; try done.
      * intros s Hs. by rewrite lookup_insert_ne.
      * by apply lookup_ge_None_2.
Qed.

(** *** [Fragments] and [MaxSlice] read the map *)

Lemma foldl_snoc_snd {A B : Type} (l : list (A * B)) (acc : list B) :
  foldl (λ other kv, other ++ [kv.2]) acc l = acc ++ l.*2.
Proof.
  revert acc. induction l as [|kv l IH]; intros acc; cbn.
  - by rewrite app_nil_r.
  - by rewrite IH, <- app_assoc.
Qed.

Lemma Fragments_range st :
  Fragments st = (range_order (world st) (fragments (view st))).*2.
Proof. unfold Fragments. by rewrite foldl_snoc_snd. Qed.

(** [Fragments] returns the fragments of the map and no other, each entry
    of the map once, in whatever order the map is ranged over. *)
Theorem Fragments_lists_the_map st :
  Fragments st ≡ₚ (map_to_list (fragments (view st))).*2
  ∧ length (Fragments st) = size (fragments (view st))
  ∧ (∀ l : loc, l ∈ Fragments st ↔ ∃ slice, Fragment_of slice st = Some l).
Proof.
  rewrite Fragments_range.
  assert ((range_order (world st) (fragments (view st))).*2
          ≡ₚ (map_to_list (fragments (view st))).*2) as Hperm
    by (by rewrite range_order_perm).
  split; [done|]. split.
  - by rewrite Hperm, length_fmap, length_map_to_list.
  - intros l. rewrite list_elem_of_fmap. split.
    + intros ([slice l'] & -> & Hin). exists slice.
      by apply elem_of_range_order in Hin.
    + intros [slice Hl]. exists (slice, l). split; [done|].
      by apply elem_of_range_order.
Qed.

(** When every fragment of the map reports the slice it is stored under,
    two slices never share a fragment, and [Fragments] lists no fragment
    twice. *)
Theorem distinct_slices_distinct_fragments st :
  registry_inv st →
  (∀ s1 s2 (l : loc),
     Fragment_of s1 st = Some l → Fragment_of s2 st = Some l → s1 = s2)
  ∧ NoDup (Fragments st).
Proof.
  intros Hinv.
  assert (∀ s1 s2 (l : loc),
            fragments (view st) !! s1 = Some l →
            fragments (view st) !! s2 = Some l → s1 = s2) as Hinj.
  { intros s1 s2 l H1 H2.
    destruct (Hinv _ _ H1) as (f1 & Hf1 & <-).
    destruct (Hinv _ _ H2) as (f2 & Hf2 & <-). congruence. }
  split; [exact Hinj|].
  rewrite Fragments_range, range_order_perm.
  apply NoDup_fmap_2_strong; [|apply NoDup_map_to_list].
  intros [s1 l1] [s2 l2] H1%elem_of_map_to_list H2%elem_of_map_to_list Heq.
  cbn in Heq. subst l2. f_equal. by eapply Hinj.
Qed.

Lemma MaxSlice_unique st (m : N) :
  (fragments (view st) = ∅ → m = 0) →
  (∀ slice, slice ∈ dom (fragments (view st)) → slice ≤ m) →
  (fragments (view st) ≠ ∅ → m ∈ dom (fragments (view st))) →
  MaxSlice st = m.
Proof.
  intros Hempty Hall Hmem.
  destruct (MaxSlice_spec st) as (Hempty' & Hall' & Hmem').
  destruct (decide (fragments (view st) = ∅)) as [Heq|Hne].
  - by rewrite Hempty, Hempty'.
  - apply N.le_antisymm; [apply Hall, Hmem', Hne|apply Hall', Hmem, Hne].
Qed.

Lemma MaxSlice_registry (st1 st2 : State W) :
  fragments (view st1) = fragments (view st2) → MaxSlice st1 = MaxSlice st2.
Proof.
  intros Heq. destruct (MaxSlice_spec st2) as (Hempty & Hall & Hmem).
  apply MaxSlice_unique; by rewrite Heq.
Qed.

(** [MaxSlice] depends on the keys of the map only, not on the order in
    which the map is ranged over.  A [CreateFragmentIfNotExists] that
    returns a fragment raises it to the larger of its old value and the
    slice, one that fails leaves it, and after [Close] it is zero. *)
Theorem MaxSlice_follows_the_map :
  (∀ st1 st2 : State W,
     fragments (view st1) = fragments (view st2) → MaxSlice st1 = MaxSlice st2)
  ∧ (∀ slice st (fr : option loc) (err : option error) st',
       CreateFragmentIfNotExists slice st = ((fr, err), st') →
       MaxSlice st' = match err with
                      | None => N.max (MaxSlice st) slice
                      | Some _ => MaxSlice st
                      end)
  ∧ (∀ st, MaxSlice (Close st).2 = 0).
Proof.
  split; [apply MaxSlice_registry|]. split.
  - intros slice st fr err st'. unfold CreateFragmentIfNotExists.
    destruct (MaxSlice_spec st) as (Hempty & Hall & Hmem).
    destruct (fragments (view st) !! slice) as [l|] eqn:Hreg.
    + rewrite (create_registered _ _ _ Hreg). intros [= <- <- <-].
      assert (slice ≤ MaxSlice st) by (apply Hall, elem_of_dom; eauto). lia.
    + rewrite (create_fresh _ _ Hreg).
      destruct (Fragment_Open _ _ _) as [[e|] w]; intros [= <- <- <-].
      { by apply MaxSlice_registry. }
      apply MaxSlice_unique; cbn [view opened fragments set_fragments].
      * intros Habs. by apply insert_non_empty in Habs.
      * intros s. rewrite dom_insert_L.
        intros [->%elem_of_singleton|Hs]%elem_of_union; [lia|].
        specialize (Hall s Hs). lia.
      * intros _. rewrite dom_insert_L.
        destruct (N.max_spec (MaxSlice st) slice) as [[Hlt ->]|[Hle ->]].
        { apply elem_of_union_l. by apply elem_of_singleton. }
        destruct (decide (fragments (view st) = ∅)) as [Heq|Hne].
        { rewrite (Hempty Heq) in *. apply elem_of_union_l, elem_of_singleton.
          lia. }
        apply elem_of_union_r. by apply Hmem.
  - intros st. destruct (Close_spec st) as [w ->].
    by apply MaxSlice_spec.
Qed.

(** A row whose slice is in the map: [SetBit] and [ClearBit] make one
    call, to the fragment of the slice, return what it returns, and leave
    the heap and the map as they were; so every later operation on a row
    of that slice reaches the same fragment. *)
Theorem registered_slice_one_call
    (SliceWidth bitmapID profileID : N) st (l : loc) :
  Fragment_of (profileID / SliceWidth) st = Some l →
  SetBit SliceWidth bitmapID profileID st
  = (Returns (Fragment_SetBit l (deref l st) bitmapID profileID (world st)).1,
     mkState (Fragment_SetBit l (deref l st) bitmapID profileID (world st)).2
             (heap st) (view st)
             (log st ++ [EvFragmentSetBit l bitmapID profileID]))
  ∧ ClearBit SliceWidth bitmapID profileID st
    = (Returns (Fragment_ClearBit l (deref l st) bitmapID profileID (world st)).1,
       mkState (Fragment_ClearBit l (deref l st) bitmapID profileID (world st)).2
               (heap st) (view st)
               (log st ++ [EvFragmentClearBit l bitmapID profileID]))
  ∧ (∀ row, row / SliceWidth = profileID / SliceWidth →
       Fragment_of (row / SliceWidth)
                   (SetBit SliceWidth bitmapID profileID st).2 = Some l
       ∧ Fragment_of (row / SliceWidth)
                     (ClearBit SliceWidth bitmapID profileID st).2 = Some l).
Proof.
  intros Hreg. unfold Fragment_of, fragment in *.
  assert (SetBit SliceWidth bitmapID profileID st
          = (Returns (Fragment_SetBit l (deref l st) bitmapID profileID (world st)).1,
             mkState (Fragment_SetBit l (deref l st) bitmapID profileID (world st)).2
               (heap st) (view st)
               (log st ++ [EvFragmentSetBit l bitmapID profileID]))) as Hset.
  { unfold SetBit, CreateFragmentIfNotExists.
    rewrite (create_registered _ _ _ Hreg). unfold frag_SetBit.
    by rewrite call_spec. }
  assert (ClearBit SliceWidth bitmapID profileID st
          = (Returns (Fragment_ClearBit l (deref l st) bitmapID profileID (world st)).1,
             mkState (Fragment_ClearBit l (deref l st) bitmapID profileID (world st)).2
               (heap st) (view st)
               (log st ++ [EvFragmentClearBit l bitmapID profileID]))) as Hclear.
  { unfold ClearBit, CreateFragmentIfNotExists.
    rewrite (create_registered _ _ _ Hreg). unfold frag_ClearBit.
    by rewrite call_spec. }
  split; [exact Hset|]. split; [exact Hclear|].
  intros row Hrow. rewrite Hset, Hclear, Hrow. by cbn.
Qed.

(** *** The calls of a scan *)

Lemma openFragments_range_log (fis : list FileInfo) st st' :
  openFragments_range fis st = (None, st') →
  log st' = log st ++ scan_events (length (heap st)) (omap recognised fis).
Proof.
  revert st. induction fis as [|fi fis IH]; intros st.
  { intros [= <-]. cbn. by rewrite app_nil_r. }
  rewrite openFragments_range_cons. cbn [omap list_omap].
  destruct (recognised fi) as [slice|]; [|apply IH].
  destruct (Fragment_Open _ _ _) as [[err|] w]; [done|].
  intros Hrange. rewrite (IH _ Hrange).
  cbn [heap log opened scan_events]. rewrite length_app. cbn [length].
  by rewrite Nat.add_1_r, <- app_assoc.
Qed.

Lemma openFragments_range_no_file_event (fis : list FileInfo) st :
  ∃ evs, log (openFragments_range fis st).2 = log st ++ evs
         ∧ Forall (λ ev, is_file_event ev = false) evs.
Proof.
  revert st. induction fis as [|fi fis IH]; intros st.
  { exists []. by rewrite app_nil_r. }
  rewrite openFragments_range_cons.
  destruct (recognised fi) as [slice|]; [|apply IH].
  destruct (Fragment_Open _ _ _) as [[err|] w].
  - eexists. split; [reflexivity|]. by repeat constructor.
  - destruct (IH (opened slice w st)) as (evs & Hlog & Hall).
    eexists. rewrite Hlog. cbn [log opened]. rewrite <- app_assoc.
    split; [reflexivity|]. by repeat constructor.
Qed.

(** The loop of a scan returns no error exactly when every fragment it
    makes opens, and then leaves the state of [scan_opens]. *)
Lemma openFragments_range_scan (fis : list FileInfo) st st' :
  openFragments_range fis st = (None, st')
  ↔ scan_opens (omap recognised fis) st = Some st'.
Proof.
  revert st. induction fis as [|fi fis IH]; intros st.
  { cbn. split; by intros [= <-]. }
  rewrite openFragments_range_cons. cbn [omap list_omap].
  destruct (recognised fi) as [slice|]; [|apply IH].
  cbn [scan_opens].
  destruct (Fragment_Open _ _ _) as [[err|] w]; [|apply IH].
  split; intros; done.
Qed.

(** A scan of a directory that opens and lists returns no error exactly
    when every fragment it makes opens.  It then has acted on the world
    by these calls and no other: it opens the directory and lists it; for each recognised
    entry, in the order of the listing, it asks the stats client of the
    view for the client of the slice, opens one fragment, at the next
    location of the heap, and counts it; and it closes the directory.
    Each call is made in the world the one before it left, and the world
    after the scan is the world after the close of the directory. *)
Theorem successful_scan_calls
    st (file : File) (fis : list FileInfo) (w1 w2 : W) :
  os_Open (filepath.Join [path (view st); str "fragments"]) (world st)
    = (inl file, w1) →
  File_Readdir file w1 = ((fis, None), w2) →
  (∀ st1,
     scan_opens (omap recognised fis)
       (mkState w2 (heap st) (view st)
          (log st ++ [EvOsOpen (filepath.Join [path (view st); str "fragments"]);
                      EvReaddir file]))
       = Some st1 →
     openFragments st
     = (None,
        mkState (File_Close file (world st1)).2 (heap st1) (view st1)
                (log st1 ++ [EvFileClose file])))
  ∧ (∀ st',
       openFragments st = (None, st') →
       (∃ st1,
          scan_opens (omap recognised fis)
            (mkState w2 (heap st) (view st)
               (log st ++ [EvOsOpen (filepath.Join [path (view st);
                                                    str "fragments"]);
                           EvReaddir file]))
            = Some st1
          ∧ st' = mkState (File_Close file (world st1)).2 (heap st1) (view st1)
                          (log st1 ++ [EvFileClose file]))
       ∧ events_after (length (log st)) st'
         = [EvOsOpen (filepath.Join [path (view st); str "fragments"]);
            EvReaddir file]
             ++ scan_events (length (heap st)) (omap recognised fis)
             ++ [EvFileClose file]
       ∧ length (heap st')
         = (length (heap st) + length (omap recognised fis))%nat).
Proof.
  intros Hdir Hls. split.
  - intros st1 Hscan. apply openFragments_range_scan in Hscan.
    rewrite openFragments_spec. cbn zeta. by rewrite Hdir, Hls, Hscan.
  - intros st'. rewrite openFragments_spec. cbn zeta. rewrite Hdir, Hls.
    destruct (openFragments_range fis _) as [res st1] eqn:Hrange.
    intros [= -> <-].
    pose proof (openFragments_range_log _ _ _ Hrange) as Hlog.
    destruct (openFragments_range_success _ _ _ Hrange) as [Hheap _].
    split.
    { exists st1. split; [|done]. by apply openFragments_range_scan. }
    cbn [heap log] in *. unfold events_after. cbn [log heap].
    rewrite Hlog, Hheap, <- !app_assoc, drop_app_length.
    split; [done|]. by rewrite length_app, length_fmap.
Qed.

(** [openFragments] closes the directory it opened, once and as its last
    call, on every way out: a listing that fails, a fragment that fails to
    open, or success.  When the directory cannot be opened nothing else is
    called, and a directory that does not exist is not an error. *)
Theorem openFragments_closes_the_directory st :
  match os_Open (filepath.Join [path (view st); str "fragments"]) (world st) with
  | (inl file, _) =>
      ∃ evs,
        events_after (length (log st)) (openFragments st).2
        = [EvOsOpen (filepath.Join [path (view st); str "fragments"]);
           EvReaddir file] ++ evs ++ [EvFileClose file]
        ∧ Forall (λ ev, is_file_event ev = false) evs
  | (inr err, w) =>
      openFragments st
      = (if os_IsNotExist err then None else Some err,
         mkState w (heap st) (view st)
                 (log st ++ [EvOsOpen (filepath.Join [path (view st);
                                                      str "fragments"])]))
  end.
Proof.
  rewrite openFragments_spec. cbn zeta.
  destruct (os_Open _ _) as [[file|err] w]; [|done].
  destruct (File_Readdir file w) as [[fis [err|]] w'].
  - exists []. unfold events_after. cbn [snd log].
    by rewrite drop_app_length.
  - destruct (openFragments_range_no_file_event fis
      (mkState w' (heap st) (view st)
         (log st ++ [EvOsOpen (filepath.Join [path (view st); str "fragments"]);
                     EvReaddir file]))) as (evs & Hlog & Hall).
    destruct (openFragments_range fis _) as [res st1].
    cbn [snd log] in *. exists evs. split; [|done].
    unfold events_after. cbn [log].
    by rewrite Hlog, <- !app_assoc, drop_app_length.
Qed.

(** [Open] stops at the first step that fails: when the directory of the
    view cannot be made the directory of the fragments is not tried, and
    when that cannot be made no directory is opened.  What follows the
    failing call is the closing of the fragments of the map. *)
Theorem Open_stops_at_first_failure st (e : error) :
  (∀ w, os_MkdirAll (path (view st)) (world st) = (Some e, w) →
        (Open st).1 = Some e
        ∧ events_after (length (log st)) (Open st).2
          = EvMkdirAll (path (view st))
              :: (EvFragmentClose <$> (range_order w (fragments (view st))).*2))
  ∧ (∀ w w',
       os_MkdirAll (path (view st)) (world st) = (None, w) →
       os_MkdirAll (filepath.Join [path (view st); str "fragments"]) w
         = (Some e, w') →
       (Open st).1 = Some e
       ∧ events_after (length (log st)) (Open st).2
         = EvMkdirAll (path (view st))
             :: EvMkdirAll (filepath.Join [path (view st); str "fragments"])
             :: (EvFragmentClose <$> (range_order w' (fragments (view st))).*2)).
Proof.
  split.
  - intros w H1. rewrite Open_spec. unfold Open_steps. cbn zeta.
    rewrite call_spec, H1. cbn [fst snd].
    destruct (Close_spec (mkState w (heap st) (view st)
                            (log st ++ [EvMkdirAll (path (view st))])))
      as [w0 ->].
    cbn [fst snd]. split; [done|].
    unfold events_after. cbn [log world view].
    by rewrite <- app_assoc, drop_app_length.
  - intros w w' H1 H2. rewrite Open_spec. unfold Open_steps. cbn zeta.
    rewrite call_spec, H1. cbn [fst snd]. rewrite call_spec.
    cbn [world heap view log]. rewrite H2. cbn [fst snd].
    destruct (Close_spec
      (mkState w' (heap st) (view st)
         ((log st ++ [EvMkdirAll (path (view st))])
            ++ [EvMkdirAll (filepath.Join [path (view st); str "fragments"])])))
      as [w0 ->].
    cbn [fst snd]. split; [done|].
    unfold events_after. cbn [log world view].
    by rewrite <- !app_assoc, drop_app_length.
Qed.

(** *** Two entries for one slice *)

Lemma register_from_last (base : nat) (slices : list N) (m : gmap N loc) s :
  s ∈ slices →
  ∃ i, slices !! i = Some s
       ∧ register_from base slices m !! s = Some (base + i)%nat
       ∧ ∀ j, slices !! j = Some s → (j ≤ i)%nat.
Proof.
  revert base m. induction slices as [|s' slices IH]; intros base m Hs.
  { by apply elem_of_nil in Hs. }
  cbn. destruct (decide (s ∈ slices)) as [Hin|Hnotin].
  - destruct (IH (S base) (<[s' := base]> m) Hin) as (i & Hi & Hl & Hlast).
    exists (S i). split; [done|]. split; [rewrite Hl; f_equal; lia|].
    intros [|j] Hj; [lia|]. specialize (Hlast j Hj). lia.
  - apply elem_of_cons in Hs as [->|?]; [|done].
    exists 0%nat. split; [done|]. split.
    + rewrite register_from_other by done.
      rewrite lookup_insert_eq. f_equal. lia.
    + intros [|j] Hj; [done|]. cbn in Hj.
      destruct Hnotin. by eapply list_elem_of_lookup_2.
Qed.

Lemma scan_events_open (base : nat) (slices : list N) (i : nat) s :
  slices !! i = Some s →
  EvFragmentOpen (base + i)%nat s ∈ scan_events base slices.
Proof.
  revert base i. induction slices as [|s' slices IH]; intros base i Hi; [done|].
  destruct i as [|i]; cbn in *.
  - injection Hi as ->. rewrite Nat.add_0_r.
    apply elem_of_cons. right. apply elem_of_cons. by left.
  - do 3 (apply elem_of_cons; right).
    replace (base + S i)%nat with (S base + i)%nat by lia. by apply IH.
Qed.

Lemma elem_of_Fragments st (l : loc) :
  l ∈ Fragments st ↔ ∃ slice, fragments (view st) !! slice = Some l.
Proof.
  rewrite Fragments_range, list_elem_of_fmap. split.
  - intros ([slice l'] & -> & Hin). exists slice.
    by apply elem_of_range_order in Hin.
  - intros [slice Hl]. exists (slice, l). split; [done|].
    by apply elem_of_range_order.
Qed.

(** When two entries of a listing read as the same slice, as [7] and
    [007] do, a scan that returns no error has opened a fragment for
    each, and the map holds the later one only: the earlier one is on the
    heap, opened, under no slice of the map, not in [Fragments], and a
    following [Close] does not close it.  The fragment of a later entry
    is the one under the slice: it was opened and [Close] closes it. *)
Theorem shadowed_fragment_is_never_closed
    (fis : list FileInfo) st st' (i j : nat) slice :
  registry_inv st →
  openFragments_range fis st = (None, st') →
  omap recognised fis !! i = Some slice →
  omap recognised fis !! j = Some slice →
  (i < j)%nat →
  EvFragmentOpen (length (heap st) + i)%nat slice
    ∈ events_after (length (log st)) st'
  ∧ is_Some (heap st' !! (length (heap st) + i)%nat)
  ∧ (∀ s, Fragment_of s st' ≠ Some (length (heap st) + i)%nat)
  ∧ ((length (heap st) + i)%nat ∉ Fragments st')
  ∧ (EvFragmentClose (length (heap st) + i)%nat
       ∉ events_after (length (log st')) (Close st').2)
  ∧ ∃ k : nat,
      (i < k)%nat
      ∧ omap recognised fis !! k = Some slice
      ∧ Fragment_of slice st' = Some (length (heap st) + k)%nat
      ∧ EvFragmentOpen (length (heap st) + k)%nat slice
          ∈ events_after (length (log st)) st'
      ∧ EvFragmentClose (length (heap st) + k)%nat
          ∈ events_after (length (log st')) (Close st').2.
Proof.
  intros Hinv Hrange Hi Hj Hlt.
  destruct (openFragments_range_success _ _ _ Hrange) as [Hheap Hview].
  pose proof (openFragments_range_log _ _ _ Hrange) as Hlog.
  set (slices := omap recognised fis) in *.
  assert (∀ s, fragments (view st') !! s ≠ Some (length (heap st) + i)%nat)
    as Hnone.
  { intros s Hs. rewrite Hview in Hs. cbn [fragments set_fragments] in Hs.
    destruct (decide (s ∈ slices)) as [Hin|Hnotin].
    - destruct (register_from_last (length (heap st)) slices
                  (fragments (view st)) s Hin) as (k & Hk & Hl & Hlast).
      rewrite Hl in Hs. injection Hs as Hs.
      assert (k = i) as -> by lia.
      assert (s = slice) as -> by congruence.
      specialize (Hlast j Hj). lia.
    - rewrite register_from_other in Hs by done.
      destruct (Hinv _ _ Hs) as (f & Hf & _).
      apply lookup_lt_Some in Hf. lia. }
  assert ((length (heap st) + i)%nat ∉ Fragments st') as Hnotin.
  { rewrite elem_of_Fragments. intros [s Hs]. by apply (Hnone s). }
  split; [|split; [|split; [|split; [|split]]]].
  - unfold events_after. rewrite Hlog, drop_app_length.
    by apply scan_events_open.
  - rewrite Hheap, lookup_app_r by lia.
    replace (length (heap st) + i - length (heap st))%nat with i by lia.
    rewrite list_lookup_fmap, Hi. by eexists.
  - exact Hnone.
  - exact Hnotin.
  - destruct (Close_spec st') as [w ->]. unfold events_after. cbn [snd log].
    rewrite drop_app_length, <- Fragments_range.
    intros (l & Hl & Hin)%list_elem_of_fmap. by injection Hl as <-.
  - assert (slice ∈ slices) as Hin by (by eapply list_elem_of_lookup_2).
    destruct (register_from_last (length (heap st)) slices
                (fragments (view st)) slice Hin) as (k & Hk & Hl & Hlast).
    specialize (Hlast j Hj).
    assert (fragments (view st') !! slice = Some (length (heap st) + k)%nat)
      as Hreg by (by rewrite Hview).
    exists k. split; [lia|]. split; [done|]. split; [done|]. split.
    + unfold events_after. rewrite Hlog, drop_app_length.
      by apply scan_events_open.
    + rewrite Close_closed. unfold events_after, closed. cbn [snd log].
      rewrite drop_app_length.
      apply list_elem_of_fmap. eexists. split; [done|].
      apply list_elem_of_fmap. exists (slice, (length (heap st) + k)%nat).
      split; [done|]. by apply elem_of_range_order.
Qed.

End MoreProperties.


(** ** The statements on concrete runs *)

Lemma SetBit_ClearBit_route_by_slice_run :
  2 ≤ 3
  ∧ routes_to Fragment_SetBit EvFragmentSetBit 0 10 2 Sim.fresh_state
              (SetBit 4 10 2 Sim.fresh_state).
Proof.
  assert (2 ≤ 3) as Hrow by lia. split; [exact Hrow|].
  exact (proj1 (proj1 (proj2 SetBit_ClearBit_route_by_slice)
                  10 2 Sim.fresh_state Hrow)).
Defined.


Lemma openFragments_discovers_numbered_files_run :
  Open Sim.four_state = (None, Sim.opened_state)
  ∧ dom (fragments (view Sim.opened_state)) = {[3; 7]}
  ∧ MaxSlice Sim.opened_state = 7.
Proof.
  assert (Open Sim.four_state = (None, Sim.opened_state)) as Hopen
    by (vm_compute; reflexivity).
  split; [exact Hopen|].
  exact (proj1 (proj2 (proj2 (proj2 openFragments_discovers_numbered_files)))
           Sim.four_state Sim.opened_state 3%nat
           Sim.four_world Sim.four_world Sim.four_world Sim.four_world
           eq_refl eq_refl eq_refl eq_refl eq_refl Hopen).
Defined.

Lemma Open_failure_closes_and_returns_error_run :
  openFragments Sim.broken_made
  = (Some (str "open fragment: slice=%!s(uint64=7), err=input/output error"),
     Sim.broken_scanned)
  ∧ Open Sim.broken_state
    = (Some (str "open fragment: slice=%!s(uint64=7), err=input/output error"),
       closed Sim.broken_scanned)
  ∧ fragments (view Sim.broken_scanned) !! 3 = Some 0%nat
  ∧ Sim.closes (world (closed Sim.broken_scanned)) = [3].
Proof.
  assert (openFragments Sim.broken_made
          = (Some (str "open fragment: slice=%!s(uint64=7), err=input/output error"),
             Sim.broken_scanned)) as Hscan by (vm_compute; reflexivity).
  split; [exact Hscan|].
  split; [|split; vm_compute; reflexivity].
  exact (proj1 (proj2 (proj2 (Open_failure_closes_and_returns_error
                                Sim.broken_state)))
           _ Sim.broken_world Sim.broken_world Sim.broken_scanned
           eq_refl eq_refl Hscan).
Defined.

Lemma Close_closes_all_and_empties_run :
  (Fragment_Close 1%nat (deref 1%nat Sim.stubborn_state)
                  (world Sim.stubborn_state)).1 = Some Sim.EIO
  ∧ Close Sim.stubborn_state = (None, closed Sim.stubborn_state)
  ∧ Sim.closes (world (closed Sim.stubborn_state)) = [7; 3]
  ∧ fragments (view (closed Sim.stubborn_state)) = ∅.
Proof.
  split; [vm_compute; reflexivity|].
  split; [|split; vm_compute; reflexivity].
  exact (proj1 (proj2 (proj2 (proj2 (proj2 (proj2 (proj2
           (Close_closes_all_and_empties Sim.stubborn_state)))))))).
Defined.

Lemma openFragments_aborts_on_open_failure_run :
  openFragments_range [Sim.file "3"] Sim.broken_state = (None, Sim.scanned_state)
  ∧ recognised (Sim.file "7") = Some 7
  ∧ Fragment_Open (length (heap Sim.scanned_state))
                  (fresh_fragment Sim.scanned_state 7)
                  (tagged 7 Sim.scanned_state)
    = (Some Sim.EIO, Sim.four_world)
  ∧ openFragments_range Sim.four_entries Sim.broken_state
    = (Some (open_fragment_error 7 Sim.EIO),
       open_failed 7 Sim.four_world Sim.scanned_state).
Proof.
  assert (openFragments_range [Sim.file "3"] Sim.broken_state
          = (None, Sim.scanned_state)) as Hpre
    by (vm_compute; reflexivity).
  assert (recognised (Sim.file "7") = Some 7) as Hrec
    by (vm_compute; reflexivity).
  assert (Fragment_Open (length (heap Sim.scanned_state))
                        (fresh_fragment Sim.scanned_state 7)
                        (tagged 7 Sim.scanned_state)
          = (Some Sim.EIO, Sim.four_world)) as Hfail
    by (vm_compute; reflexivity).
  split; [exact Hpre|]. split; [exact Hrec|]. split; [exact Hfail|].
  exact (proj1 (openFragments_aborts_on_open_failure
                  [Sim.file "3"] [Sim.file "x"; Sim.file "12.tmp"]
                  (Sim.file "7") 7 Sim.broken_state Sim.scanned_state
                  Sim.EIO Sim.four_world Hpre Hrec Hfail)).
Defined.

Lemma registry_inv_preserved_run :
  registry_inv Sim.four_state ∧ registry_inv (openFragments Sim.four_state).2.
Proof.
  assert (registry_inv Sim.four_state) as Hinv.
  { intros slice frag Hreg. vm_compute in Hreg. discriminate Hreg. }
  split; [exact Hinv|].
  exact (proj1 (proj2 registry_inv_preserved Sim.four_state Hinv)).
Defined.

Lemma FragmentPath_is_cleaned_join_run :
  filepath.Clean (path (Sim.view_at "/data/v")) = path (Sim.view_at "/data/v")
  ∧ FragmentPath (Sim.view_at "/data/v") 5 = str "/data/v/fragments/5".
Proof.
  assert (filepath.Clean (path (Sim.view_at "/data/v"))
          = path (Sim.view_at "/data/v")) as Hclean
    by (vm_compute; reflexivity).
  assert (path (Sim.view_at "/data/v") ≠ str "/") as Hroot
    by (vm_compute; discriminate).
  assert (path (Sim.view_at "/data/v") ≠ str ".") as Hdot
    by (vm_compute; discriminate).
  split; [exact Hclean|].
  exact (proj2 (proj1 (proj2 (proj2
           (FragmentPath_is_cleaned_join (Sim.view_at "/data/v") 5)))
           Hclean Hroot Hdot)).
Defined.

Lemma SetBit_ClearBit_creation_failure_run :
  CreateFragmentIfNotExists (5 / 4) Sim.flaky_state
  = ((None, Some Sim.EIO), Sim.failed_state)
  ∧ SetBit 4 10 5 Sim.flaky_state
    = (Returns (false, Some Sim.EIO), Sim.failed_state).
Proof.
  assert (CreateFragmentIfNotExists (5 / 4) Sim.flaky_state
          = ((None, Some Sim.EIO), Sim.failed_state))
    as Hfail by (vm_compute; reflexivity).
  split; [exact Hfail|].
  exact (proj1 (SetBit_ClearBit_creation_failure 4 10 5 Sim.flaky_state
                  None Sim.EIO Sim.failed_state Hfail)).
Defined.

Lemma CreateFragmentIfNotExists_fragment_iff_no_error_run :
  (SetBit 4 10 5 Sim.flaky_state).1 ≠ Panics.
Proof.
  exact (proj1 (proj2 CreateFragmentIfNotExists_fragment_iff_no_error
                  4 10 5 Sim.flaky_state)).
Defined.

(** C8, as the specification words it: the path of the view followed
    by [/fragments/<slice>].  It does not hold for a path that [Join]
    cleans:
    an empty path gives a relative [fragments/5], a path that ends in a
    separator loses it, and the current directory is dropped. *)
Lemma FragmentPath_not_plain_concatenation :
  FragmentPath (Sim.view_at "") 5 = str "fragments/5"
  ∧ FragmentPath (Sim.view_at "") 5
    ≠ path (Sim.view_at "") ++ str "/fragments/" ++ strconv.FormatUint 5
  ∧ FragmentPath (Sim.view_at "/data/v/") 5 = str "/data/v/fragments/5"
  ∧ FragmentPath (Sim.view_at "/data/v/") 5
    ≠ path (Sim.view_at "/data/v/") ++ str "/fragments/" ++ strconv.FormatUint 5
  ∧ FragmentPath (Sim.view_at ".") 5 = str "fragments/5"
  ∧ FragmentPath (Sim.view_at ".") 5
    ≠ path (Sim.view_at ".") ++ str "/fragments/" ++ strconv.FormatUint 5.
Proof.
  repeat split; try (vm_compute; reflexivity); vm_compute; discriminate.
Qed.


(** ** The further statements on concrete runs *)

Lemma Swap_transposes_run :
  viewSlice_Swap Sim.some_views 0 1
  = Returns [Some (Sim.named "inverse"); Some (Sim.named "standard"); None]
  ∧ viewSlice_Less
      [Some (Sim.named "inverse"); Some (Sim.named "standard"); None] 0 1
    = viewSlice_Less Sim.some_views 1 0.
Proof.
  assert (viewSlice_Swap Sim.some_views 0 1
          = Returns [Some (Sim.named "inverse"); Some (Sim.named "standard"); None])
    as Hswap by reflexivity.
  split; [exact Hswap|].
  exact (proj1 (proj2 (proj2 Swap_transposes)) Sim.some_views _ 0%Z 1%Z Hswap).
Defined.

Lemma IsViewInverted_iff_prefix_run :
  (length (str "inv") < 7)%nat ∧ IsViewInverted (str "inv") = false.
Proof.
  assert (length (str "inv") < 7)%nat as Hshort by (vm_compute; lia).
  split; [exact Hshort|].
  exact (proj1 (proj2 (IsViewInverted_iff_prefix (str "inv"))) Hshort).
Defined.

Lemma registered_fragments_are_wired_run :
  wired Sim.four_state ∧ wired (Open Sim.four_state).2.
Proof.
  assert (wired Sim.four_state) as Hw.
  { intros slice l Hreg. vm_compute in Hreg. discriminate Hreg. }
  split; [exact Hw|].
  exact (proj1 (proj1 (proj2 registered_fragments_are_wired) Sim.four_state Hw)).
Defined.

Lemma CreateFragmentIfNotExists_then_Fragment_run :
  CreateFragmentIfNotExists 5 Sim.fresh_state
  = ((Some 0%nat, None), (CreateFragmentIfNotExists 5 Sim.fresh_state).2)
  ∧ Fragment_of 5 (CreateFragmentIfNotExists 5 Sim.fresh_state).2 = Some 0%nat.
Proof.
  assert (CreateFragmentIfNotExists 5 Sim.fresh_state
          = ((Some 0%nat, None), (CreateFragmentIfNotExists 5 Sim.fresh_state).2))
    as Hc by (vm_compute; reflexivity).
  split; [exact Hc|].
  exact (proj1 (CreateFragmentIfNotExists_then_Fragment 5 Sim.fresh_state
                  _ _ _ Hc)).
Defined.

Lemma distinct_slices_distinct_fragments_run :
  registry_inv Sim.opened_state ∧ NoDup (Fragments Sim.opened_state).
Proof.
  assert (registry_inv Sim.four_state) as Hinv0.
  { intros slice frag Hreg. vm_compute in Hreg. discriminate Hreg. }
  assert (registry_inv Sim.opened_state) as Hinv
    by exact (registry_inv_Open Sim.four_state Hinv0).
  split; [exact Hinv|].
  exact (proj2 (distinct_slices_distinct_fragments Sim.opened_state Hinv)).
Defined.

Lemma MaxSlice_follows_the_map_run :
  CreateFragmentIfNotExists 9 Sim.opened_state
  = ((Some 2%nat, None), (CreateFragmentIfNotExists 9 Sim.opened_state).2)
  ∧ MaxSlice (CreateFragmentIfNotExists 9 Sim.opened_state).2
    = N.max (MaxSlice Sim.opened_state) 9.
Proof.
  assert (CreateFragmentIfNotExists 9 Sim.opened_state
          = ((Some 2%nat, None), (CreateFragmentIfNotExists 9 Sim.opened_state).2))
    as Hc by (vm_compute; reflexivity).
  split; [exact Hc|].
  exact (proj1 (proj2 MaxSlice_follows_the_map) 9 Sim.opened_state _ _ _ Hc).
Defined.

Lemma registered_slice_one_call_run :
  Fragment_of (13 / 4) Sim.opened_state = Some 0%nat
  ∧ Fragment_of (14 / 4) (SetBit 4 10 13 Sim.opened_state).2 = Some 0%nat.
Proof.
  assert (Fragment_of (13 / 4) Sim.opened_state = Some 0%nat) as Hreg
    by (vm_compute; reflexivity).
  split; [exact Hreg|].
  exact (proj1 (proj2 (proj2 (registered_slice_one_call 4 10 13
                                Sim.opened_state 0%nat Hreg))
                  14 eq_refl)).
Defined.

Lemma successful_scan_calls_run :
  openFragments Sim.four_state = (None, (openFragments Sim.four_state).2)
  ∧ events_after (length (log Sim.four_state)) (openFragments Sim.four_state).2
    = [EvOsOpen (str "/data/v/fragments"); EvReaddir 3%nat;
       EvStatsWithTags (str "slice:3"); EvFragmentOpen 0%nat 3;
       EvStatsCount (str "maxSlice") 1;
       EvStatsWithTags (str "slice:7"); EvFragmentOpen 1%nat 7;
       EvStatsCount (str "maxSlice") 1;
       EvFileClose 3%nat].
Proof.
  assert (openFragments Sim.four_state
          = (None, (openFragments Sim.four_state).2)) as Hopen
    by (vm_compute; reflexivity).
  split; [exact Hopen|].
  exact (proj1 (proj2 (proj2 (successful_scan_calls Sim.four_state 3%nat
                                Sim.four_entries Sim.four_world Sim.four_world
                                eq_refl eq_refl)
                         _ Hopen))).
Defined.

Lemma Open_stops_at_first_failure_run :
  os_MkdirAll (filepath.Join [path (view Sim.denied_state); str "fragments"])
              (world Sim.denied_state)
  = (Some Sim.EACCES, world Sim.denied_state)
  ∧ (Open Sim.denied_state).1 = Some Sim.EACCES.
Proof.
  assert (os_MkdirAll (path (view Sim.denied_state)) (world Sim.denied_state)
          = (None, world Sim.denied_state)) as H1 by (vm_compute; reflexivity).
  assert (os_MkdirAll
            (filepath.Join [path (view Sim.denied_state); str "fragments"])
            (world Sim.denied_state)
          = (Some Sim.EACCES, world Sim.denied_state)) as H2
    by (vm_compute; reflexivity).
  split; [exact H2|].
  exact (proj1 (proj2 (Open_stops_at_first_failure Sim.denied_state Sim.EACCES)
                  _ _ H1 H2)).
Defined.

Lemma fragment_files_are_found_again_run :
  5 ≤ strconv.maxUint64
  ∧ filepath.Base (FragmentPath (Sim.view_at "/data/v") 5) = str "5".
Proof.
  assert (5 ≤ strconv.maxUint64) as Hn by (vm_compute; discriminate).
  split; [exact Hn|].
  exact (proj1 (proj2 (fragment_files_are_found_again (Sim.view_at "/data/v")
                         5 Hn))).
Defined.

Lemma shadowed_fragment_is_never_closed_run :
  openFragments_range Sim.twice_entries Sim.twice_state
  = (None, Sim.twice_scanned)
  ∧ omap recognised Sim.twice_entries = [7; 7]
  ∧ (0%nat ∉ Fragments Sim.twice_scanned).
Proof.
  assert (registry_inv Sim.twice_state) as Hinv.
  { intros slice frag Hreg. vm_compute in Hreg. discriminate Hreg. }
  assert (openFragments_range Sim.twice_entries Sim.twice_state
          = (None, Sim.twice_scanned)) as Hrange by (vm_compute; reflexivity).
  assert (omap recognised Sim.twice_entries = [7; 7]) as Hrec
    by (vm_compute; reflexivity).
  split; [exact Hrange|]. split; [exact Hrec|].
  exact (proj1 (proj2 (proj2 (proj2
           (shadowed_fragment_is_never_closed Sim.twice_entries
              Sim.twice_state Sim.twice_scanned 0 1 7 Hinv Hrange
              eq_refl eq_refl (Nat.lt_0_1)))))).
Defined.
